(** * PiTime: the spigot digit generator of [PiTime.cpp]

    A shallow embedding of [calculatePiDigitsString] (the [generate] of the
    specification) and the properties of its state vector, its nines
    buffering and its output.

    Conventions of the embedding.
    - The program is embedded twice. In the first embedding C++ [int] and
      [long long] values are integers of [Z] and nothing overflows; section
      [MachineRanges] bounds every value of a run by the range of its type
      as long as the state vector has at most [2 ^ 30] entries (n up to
      322122546). The second embedding, module [Machine], has the widths of
      the types: every operation is followed by the reduction into its
      type (signed overflow, undefined in C++, wraps around as the two's
      complement arithmetic of the hardware does), line 110 is computed in
      binary64 and converted, and an allocation of a negative size throws.
      The two agree up to n = 322122546 (lemmas [machine_after_exact] and
      [machine_generate_exact]).
    - C++ [/] and [%] truncate toward zero: [Z.quot] and [Z.rem].
    - [std::vector<int>] is a [list Z]; [operator[]] outside the vector is
      undefined in C++ and is the only source of [None] in the embedding.
    - [std::stringstream] is a [string] accumulator, [<<] on an [int]
      appends its decimal form.
    - [calculated_digits.reserve(n + 5)] (line 117) changes no value and is
      left out of the first embedding; in [Machine] it can throw. *)

From Stdlib Require Import ZArith String Ascii Decimal DecimalString Lia.
From stdpp Require Import base option list.

Local Open Scope Z_scope.

(** * The program *)

(** ** Vectors with checked access *)

Module Vec.

(** [v[i]] as a read. *)
Definition get (v : list Z) (i : Z) : option Z :=
  if bool_decide (0 ≤ i) then v !! Z.to_nat i else None.

(** [v[i] = x]. *)
Definition set (v : list Z) (i : Z) (x : Z) : option (list Z) :=
  if bool_decide (0 ≤ i < Z.of_nat (length v))
  then Some (<[Z.to_nat i := x]> v) else None.

(** [v.push_back(x)]. *)
Definition push_back (v : list Z) (x : Z) : list Z := v ++ [x].

(** [v.size()]. *)
Definition size (v : list Z) : Z := Z.of_nat (length v).

End Vec.

(** ** The state of one call *)

(** The locals that live across outer iterations (lines 111-120). *)
Record state : Type := State {
  a : list Z;
  calculated_digits : list Z;
  nines : Z;
  predigit : Z
}.

(** Line 110 on the integers. [10.0 * n] is exact in binary64 for an [int]
    n, the quotient by [3.0] is rounded to a value at distance below [1/3]
    of the exact one, so [std::floor] of it is the integer quotient (lemma
    [binary64_len_exact] below checks this on a model of the rounding).
    The [int] of line 110 is this value for [0 < n <= 644245093] only:
    [Machine.vector_len] has the conversion to [int] and the [int]
    addition of 3 (lemma [machine_vector_len]). *)
Definition vector_len (n : Z) : Z := 10 * n / 3 + 3.

(** Lines 112-114: [for (i = 0; i < len; ++i) a[i] = 2], [count] being the
    number of iterations left. *)
Fixpoint fill_loop (count : nat) (i : Z) (v : list Z) : option (list Z) :=
  match count with
  | O => Some v
  | S count' => v' ← Vec.set v i 2; fill_loop count' (i + 1) v'
  end.

(** Lines 111-114: [std::vector<int> a(len)] is zero filled, then set.
    Here [len] is a size the constructor accepts;
    [Machine.alloc_state_vector] has the [std::length_error] of the
    constructor on the negative [len] of an overflowed line 110. *)
Definition alloc_state_vector (len : Z) : option (list Z) :=
  fill_loop (Z.to_nat len) 0 (replicate (Z.to_nat len) 0).

Definition initial_state (v : list Z) : state := State v [] 0 0.

(** ** The inner normalization pass (lines 124-128) *)

(** The body of the inner loop at index [i], on the integers: the
    program's values as long as [2 * i + 1] is an [int], that is for
    [i < 2 ^ 30]. [Machine.inner_body] has the widths of the types (lemma
    [machine_inner_body_exact]). *)
Definition inner_body (i : Z) (v : list Z) (carry : Z) : option (list Z * Z) :=
  ai ← Vec.get v i;
  let num := ai * 10 + carry in
  v' ← Vec.set v i (Z.rem num (2 * i + 1));
  Some (v', Z.quot num (2 * i + 1) * i).

(** [for (i = start; i > 0; --i)]: the recursion is on the loop variable. *)
Fixpoint inner_loop (i : nat) (v : list Z) (carry : Z) : option (list Z * Z) :=
  match i with
  | O => Some (v, carry)
  | S i' =>
      '(v', carry') ← inner_body (Z.of_nat i) v carry;
      inner_loop i' v' carry'
  end.

(** One step of the inner loop as a relation on configurations
    [(i, a, carry)], and the configurations a pass goes through. *)
Inductive inner_step : nat * list Z * Z → nat * list Z * Z → Prop :=
| inner_step_intro i v carry v' carry' :
    inner_body (Z.of_nat (S i)) v carry = Some (v', carry') →
    inner_step (S i, v, carry) (i, v', carry').

Inductive inner_reach : nat * list Z * Z → nat * list Z * Z → Prop :=
| inner_reach_refl c : inner_reach c c
| inner_reach_step c1 c2 c3 :
    inner_step c1 c2 → inner_reach c2 c3 → inner_reach c1 c3.

(** ** Digit extraction (lines 123-135) *)

(** Runs the pass, extracts the candidate digit and clamps it. *)
Definition digit_step (len : Z) (v : list Z) : option (list Z * Z) :=
  '(v1, carry) ← inner_loop (Z.to_nat (len - 1)) v 0;
  a0 ← Vec.get v1 0;
  let final_num := a0 * 10 + carry in
  let q := Z.quot final_num 10 in
  v2 ← Vec.set v1 0 (Z.rem final_num 10);
  let q := if 10 <=? q then 10 else q in
  Some (v2, q).

(** ** Nines buffering (lines 137-163) *)

(** [for (k = 0; k < nines; ++k) v.push_back(x)]. *)
Fixpoint push_loop (count : nat) (x : Z) (v : list Z) : list Z :=
  match count with
  | O => v
  | S count' => push_loop count' x (Vec.push_back v x)
  end.

(** Lines 137-150: what is committed. *)
Definition commit (j q : Z) (digits : list Z) (nines predigit : Z) : list Z :=
  if 0 <? j then
    if q <? 9 then
      push_loop (Z.to_nat nines) 9 (Vec.push_back digits predigit)
    else if q =? 10 then
      push_loop (Z.to_nat nines) 0 (Vec.push_back digits (predigit + 1))
    else digits
  else digits.

(** Lines 152-163: the new [predigit] and [nines]. *)
Definition rebuffer (j q : Z) (nines predigit : Z) : Z * Z :=
  if q <? 9 then
    (if 0 <? j then 0 else nines, q)
  else if q =? 9 then
    if 0 <? j then (nines + 1, predigit) else (nines, q)
  else
    (if 0 <? j then 0 else nines, 0).

(** Lines 137-163 on the state; [v] is the state vector after the
    digit extraction of this iteration. *)
Definition buffering (j q : Z) (v : list Z) (st : state) : state :=
  let digits := commit j q (calculated_digits st) (nines st) (predigit st) in
  let '(nines', predigit') := rebuffer j q (nines st) (predigit st) in
  State v digits nines' predigit'.

(** ** The outer loop (lines 122-168) *)

(** The body of the outer loop up to line 163. *)
Definition outer_body (len j : Z) (st : state) : option state :=
  '(v, q) ← digit_step len (a st);
  Some (buffering j q v st).

(** Lines 165-167. *)
Definition enough (n : Z) (st : state) : bool :=
  n + 1 <=? Vec.size (calculated_digits st).

(** [for (j = j0; j < n + 3; ++j) { body; if (enough) break; }] with
    [remaining] the number of values [j] has yet to take. *)
Fixpoint outer_loop (n len : Z) (remaining : nat) (j : Z) (st : state)
  : option state :=
  match remaining with
  | O => Some st
  | S remaining' =>
      st' ← outer_body len j st;
      if enough n st' then Some st'
      else outer_loop n len remaining' (j + 1) st'
  end.

(** [k] outer iterations from iteration [j] on, the exit test left out:
    the state the loop is in after [k] more iterations, if it gets there. *)
Fixpoint outer_run (len : Z) (k : nat) (j : Z) (st : state) : option state :=
  match k with
  | O => Some st
  | S k' => st' ← outer_body len j st; outer_run len k' (j + 1) st'
  end.

(** ** Output (lines 170-180) *)

(** [stream << x] for an [int]. *)
Definition show_int (x : Z) : string := NilZero.string_of_int (Z.to_int x).

(** Lines 176-178, [count] being the number of iterations left. *)
Fixpoint print_loop (count : nat) (i : Z) (digits : list Z) (out : string)
  : option string :=
  match count with
  | O => Some out
  | S count' =>
      d ← Vec.get digits (i + 1);
      print_loop count' (i + 1) digits (out ++ show_int d)
  end.

(** Lines 170-180. *)
Definition format_output (n : Z) (digits : list Z) : option string :=
  let num_decimal_digits_available :=
    if 0 <? Vec.size digits then Vec.size digits - 1 else 0 in
  let digits_to_print := Z.min n num_decimal_digits_available in
  print_loop (Z.to_nat digits_to_print) 0 digits "3.".

(** ** The generator (lines 105-181) *)

Definition calculatePiDigitsString (n : Z) : option string :=
  if n <=? 0 then Some "3."%string
  else
    let len := vector_len n in
    v ← alloc_state_vector len;
    st ← outer_loop n len (Z.to_nat (n + 3)) 0 (initial_state v);
    format_output n (calculated_digits st).

(** The state iteration 0 of [generate n] starts from. *)
Definition start (n : Z) : state :=
  initial_state (replicate (Z.to_nat (vector_len n)) 2).

(** The state after [k] outer iterations of [generate n]. *)
Definition after (n : Z) (k : nat) : option state :=
  outer_run (vector_len n) k 0 (start n).

(** * The specification's wording *)

(** ** The outer iteration *)




(** ** The buffering *)

(** "If q < 9: commit predigit to the output sequence, then commit nines
    literal 9s; set predigit = q; reset nines = 0. If q == 10: commit
    predigit + 1 to the output sequence, then commit nines literal 0s; set
    predigit = 0; reset nines = 0. If q == 9: do not commit anything;
    increment nines." No other case is named. The result is the committed
    sequence, [nines] and [predigit]. *)
Definition spec_resolution (q : Z) (digits : list Z) (nines predigit : Z)
  : option (list Z * Z * Z) :=
  if q <? 9 then
    Some (digits ++ predigit :: replicate (Z.to_nat nines) 9, 0, q)
  else if q =? 10 then
    Some (digits ++ (predigit + 1) :: replicate (Z.to_nat nines) 0, 0, 0)
  else if q =? 9 then
    Some (digits, nines + 1, predigit)
  else None.

(** "On the first outer iteration only: set predigit = q directly", the
    resolution being "skipped on the very first outer iteration, which
    only initializes predigit". *)
Definition spec_first (q : Z) (digits : list Z) (nines predigit : Z)
  : option (list Z * Z * Z) :=
  Some (digits, nines, q).

Definition spec_buffering (first : bool) (q : Z) (st : state)
  : option (list Z * Z * Z) :=
  (if first then spec_first else spec_resolution)
    q (calculated_digits st) (nines st) (predigit st).

Definition buffers (st : state) : list Z * Z * Z :=
  (calculated_digits st, nines st, predigit st).

(** * Definitions for the proofs *)

(** ** Invariants *)

(** Entry 0 is a decimal digit and entry [k >= 1] is below its radix
    [2k + 1]. *)
Definition radix_inv (v : list Z) : Prop :=
  ∀ (k : nat) (x : Z), v !! k = Some x →
    0 ≤ x ∧ (if k is O then x ≤ 9 else x < 2 * Z.of_nat k + 1).

Definition is_digit (d : Z) : Prop := 0 ≤ d ≤ 9.

(** What holds when iteration [j] starts: the vector has its length and
    its radix invariant; every committed entry is a decimal digit; the
    pending digit is at most 8, so that a carry into it stays a digit; and
    of the [j] candidates seen so far all but the pending digit and the
    buffered nines are committed. *)
Record loop_inv (len j : Z) (st : state) : Prop := LoopInv {
  inv_length : length (a st) = Z.to_nat len;
  inv_radix : radix_inv (a st);
  inv_first : j = 0 → a st !! 0%nat = Some 2;
  inv_nines : 0 ≤ nines st;
  inv_predigit : 0 ≤ predigit st ≤ 8;
  inv_digits : Forall is_digit (calculated_digits st);
  inv_count :
    Vec.size (calculated_digits st) + nines st = Z.max 0 (j - 1)
}.

(** ** The pass on the list structure *)

(** The inner pass as a fold from the right over the segment [l] of the
    vector that starts at index [i]: the tail (the higher indices) is
    normalized first and hands its carry to the head. Quotient and
    remainder come from one truncating division. *)
Fixpoint pass (i : Z) (l : list Z) (carry_in : Z) : list Z * Z :=
  match l with
  | [] => ([], carry_in)
  | x :: l' =>
      let '(l'', carry) := pass (i + 1) l' carry_in in
      let '(quotient, remainder) := Z.quotrem (x * 10 + carry) (2 * i + 1) in
      (remainder :: l'', quotient * i)
  end.

(** The generator with the digit extraction done by [pass]: the same
    results (lemma [generate_fast]) without the indexed reads and writes,
    used to evaluate the generator on concrete inputs. *)
Module Fast.

Definition digit_step (v : list Z) : option (list Z * Z) :=
  match v with
  | [] => None
  | a0 :: tl =>
      let '(tl', carry) := pass 1 tl 0 in
      let final_num := a0 * 10 + carry in
      let q := Z.quot final_num 10 in
      Some (Z.rem final_num 10 :: tl', if 10 <=? q then 10 else q)
  end.

Definition outer_body (j : Z) (st : state) : option state :=
  '(v, q) ← digit_step (a st);
  Some (buffering j q v st).

Fixpoint outer_loop (n : Z) (remaining : nat) (j : Z) (st : state)
  : option state :=
  match remaining with
  | O => Some st
  | S remaining' =>
      st' ← outer_body j st;
      if enough n st' then Some st'
      else outer_loop n remaining' (j + 1) st'
  end.

Definition generate (n : Z) : option string :=
  if n <=? 0 then Some "3."%string
  else
    let v := replicate (Z.to_nat (vector_len n)) 2 in
    st ← outer_loop n (Z.to_nat (n + 3)) 0 (initial_state v);
    format_output n (calculated_digits st).

End Fast.

(** ** Strings of digits *)

(** The decimal forms of a sequence of integers, one after the other. *)
Fixpoint show_digits (ds : list Z) : string :=
  match ds with
  | [] => EmptyString
  | d :: ds' => show_int d ++ show_digits ds'
  end.

(** The characters ['0'] to ['9']. *)
Definition ascii_digit (c : ascii) : Prop :=
  (48 ≤ nat_of_ascii c ≤ 57)%nat.

Fixpoint string_forall (P : ascii → Prop) (s : string) : Prop :=
  match s with
  | EmptyString => True
  | String c s' => P c ∧ string_forall P s'
  end.

(** ** Line 110 in binary64 *)

(** Line 110 as binary64 computes it, for [N = 10 * n] between 3 and
    [2 ^ 53], where the product [10.0 * n] is exact. The quotient [N / 3]
    lies in the binade of exponent [e]; it is rounded to the nearest
    multiple of [2 ^ (e - 52)], that is [N * s / 3] is rounded to the
    nearest integer with [s = 2 ^ (52 - e)] (a third is never a tie);
    [std::floor] then takes the integer part. *)
Definition round_div3 (d : Z) : Z := (2 * d + 3) / 6.

Definition binary64_floor_div3 (N : Z) : Z :=
  let e := Z.log2 (N / 3) in
  let s := 2 ^ (52 - e) in
  round_div3 (N * s) / s.

Definition binary64_len (n : Z) : Z := binary64_floor_div3 (10 * n) + 3.

(** ** The value of the state vector *)

(** The state vector stands for the number
    [a0 + 1/3 (a1 + 2/5 (a2 + 3/7 (a3 + ...)))], entry [i] having the
    weight [i / (2 i + 1)] of the header comment's mixed radix. For the
    segment [l] that starts at index [i >= 1],
    [tail_numer i l / tail_denom i l] is [i / (2 i + 1) (x + ...)]; the
    denominator depends on the length only. *)
Fixpoint tail_denom (i : Z) (l : list Z) : Z :=
  match l with
  | [] => 1
  | _ :: l' => (2 * i + 1) * tail_denom (i + 1) l'
  end.

Fixpoint tail_numer (i : Z) (l : list Z) : Z :=
  match l with
  | [] => 0
  | x :: l' => i * (x * tail_denom (i + 1) l' + tail_numer (i + 1) l')
  end.

(** The value of the vector [v] is [numer v / denom v]. *)
Definition denom (v : list Z) : Z := tail_denom 1 (tail v).

Definition numer (v : list Z) : Z :=
  match v with
  | [] => 0
  | a0 :: tl => a0 * tail_denom 1 tl + tail_numer 1 tl
  end.

(** ** The decimal number produced so far *)

(** The integer a sequence of decimal digits reads as, first entry most
    significant. *)
Fixpoint decimal_from (acc : Z) (ds : list Z) : Z :=
  match ds with
  | [] => acc
  | d :: ds' => decimal_from (10 * acc + d) ds'
  end.

Definition decimal (ds : list Z) : Z := decimal_from 0 ds.

(** What the buffers stand for: the committed entries, then the pending
    digit, then the buffered nines. *)
Definition produced (st : state) : list Z :=
  calculated_digits st ++ predigit st :: replicate (Z.to_nat (nines st)) 9.

(** * The program on machine integers *)

(** The definitions above take the [int] and [long long] of the program
    for the integers. [Machine] is the same program with the arithmetic of
    its types: a value is reduced into its type after every operation, line
    110 goes through binary64 and [static_cast<int>], and the allocations
    can fail. The two agree as long as the state vector has at most
    [2 ^ 30] entries (lemmas [machine_generate_exact] and
    [machine_after_exact]). *)

(** ** Results and failures *)

(** How a call can end without a result: [std::length_error] thrown by a
    [std::vector] asked for more than [max_size()] entries; the undefined
    conversion of a double outside of [int]; the undefined access outside
    a vector. *)
Inductive fault : Type :=
| length_error
| cast_out_of_range
| out_of_bounds.

Inductive result (A : Type) : Type :=
| Ok (x : A)
| Err (f : fault).

Arguments Ok {A} x.
Arguments Err {A} f.

#[global] Instance result_ret : MRet result := λ A x, Ok x.

#[global] Instance result_bind : MBind result :=
  λ A B k r, match r with Ok x => k x | Err f => Err f end.

(** An access of the embedding above as a step that can fail. *)
Definition access {A : Type} (o : option A) : result A :=
  match o with Some x => Ok x | None => Err out_of_bounds end.

Module Machine.

(** ** Fixed-width integers *)

(** The value a two's complement type of [bits] bits holds for [z]: the
    result of an operation that overflows wraps around. *)
Definition wrap (bits z : Z) : Z :=
  (z + 2 ^ (bits - 1)) mod 2 ^ bits - 2 ^ (bits - 1).

Definition as_int (z : Z) : Z := wrap 32 z.

Definition as_long_long (z : Z) : Z := wrap 64 z.

Definition as_size_t (z : Z) : Z := z mod 2 ^ 64.

Definition is_int (z : Z) : bool := (- 2 ^ 31 <=? z) && (z <? 2 ^ 31).

(** ** Allocation (lines 110-117) *)

(** Line 110: the floor of the binary64 quotient, converted to [int] when
    it is one, then the [int] addition of 3. *)
Definition vector_len (n : Z) : result Z :=
  let floor := binary64_floor_div3 (10 * n) in
  if is_int floor then Ok (as_int (floor + 3)) else Err cast_out_of_range.

(** Lines 111-114: the [int] [len] becomes the [size_t] count of the
    constructor; a negative one is above [max_size()], and for the others
    the memory is taken to suffice. The counter of the loop is below
    [len], so [++i] stays an [int]. *)
Definition alloc_state_vector (len : Z) : result (list Z) :=
  if len <? 0 then Err length_error
  else access (fill_loop (Z.to_nat len) 0 (replicate (Z.to_nat len) 0)).

(** Line 117, with the [int] [count] as its [size_t] argument. *)
Definition reserve (count : Z) : result unit :=
  if count <? 0 then Err length_error else Ok tt.

(** ** The inner normalization pass (lines 124-128) *)

(** [num] and [carry] are [long long], [2 * i + 1] and [a[i]] are [int].
    The divisor stays odd when it wraps around, so it is never 0 (lemma
    [machine_radix_odd]). *)
Definition inner_body (i : Z) (v : list Z) (carry : Z)
  : result (list Z * Z) :=
  ai ← access (Vec.get v i);
  let num := as_long_long (as_long_long (ai * 10) + carry) in
  let radix := as_int (as_int (2 * i) + 1) in
  v' ← access (Vec.set v i (as_int (Z.rem num radix)));
  Ok (v', as_long_long (as_long_long (Z.quot num radix) * i)).

Fixpoint inner_loop (i : nat) (v : list Z) (carry : Z)
  : result (list Z * Z) :=
  match i with
  | O => Ok (v, carry)
  | S i' =>
      '(v', carry') ← inner_body (Z.of_nat i) v carry;
      inner_loop i' v' carry'
  end.

Inductive inner_step : nat * list Z * Z → nat * list Z * Z → Prop :=
| inner_step_intro i v carry v' carry' :
    inner_body (Z.of_nat (S i)) v carry = Ok (v', carry') →
    inner_step (S i, v, carry) (i, v', carry').

Inductive inner_reach : nat * list Z * Z → nat * list Z * Z → Prop :=
| inner_reach_refl c : inner_reach c c
| inner_reach_step c1 c2 c3 :
    inner_step c1 c2 → inner_reach c2 c3 → inner_reach c1 c3.

(** ** Digit extraction (lines 123-135) *)

Definition digit_step (len : Z) (v : list Z) : result (list Z * Z) :=
  '(v1, carry) ← inner_loop (Z.to_nat (as_int (len - 1))) v 0;
  a0 ← access (Vec.get v1 0);
  let final_num := as_long_long (as_long_long (a0 * 10) + carry) in
  let q := as_int (Z.quot final_num 10) in
  v2 ← access (Vec.set v1 0 (as_int (Z.rem final_num 10)));
  let q := if 10 <=? q then 10 else q in
  Ok (v2, q).

(** ** Nines buffering (lines 137-163) *)

Definition commit (j q : Z) (digits : list Z) (nines predigit : Z) : list Z :=
  if 0 <? j then
    if q <? 9 then
      push_loop (Z.to_nat nines) 9 (Vec.push_back digits predigit)
    else if q =? 10 then
      push_loop (Z.to_nat nines) 0
        (Vec.push_back digits (as_int (predigit + 1)))
    else digits
  else digits.

Definition rebuffer (j q : Z) (nines predigit : Z) : Z * Z :=
  if q <? 9 then
    (if 0 <? j then 0 else nines, q)
  else if q =? 9 then
    if 0 <? j then (as_int (nines + 1), predigit) else (nines, q)
  else
    (if 0 <? j then 0 else nines, 0).

Definition buffering (j q : Z) (v : list Z) (st : state) : state :=
  let digits := commit j q (calculated_digits st) (nines st) (predigit st) in
  let '(nines', predigit') := rebuffer j q (nines st) (predigit st) in
  State v digits nines' predigit'.

(** ** The outer loop (lines 122-168) *)

Definition outer_body (len j : Z) (st : state) : result state :=
  '(v, q) ← digit_step len (a st);
  Ok (buffering j q v st).

(** Lines 165-167: the [int] [n + 1] is compared as a [size_t]. *)
Definition enough (n : Z) (st : state) : bool :=
  as_size_t (as_int (n + 1)) <=? Vec.size (calculated_digits st).

(** The counter is below the [int] [n + 3], so [++j] stays an [int]. *)
Fixpoint outer_loop (n len : Z) (remaining : nat) (j : Z) (st : state)
  : result state :=
  match remaining with
  | O => Ok st
  | S remaining' =>
      st' ← outer_body len j st;
      if enough n st' then Ok st'
      else outer_loop n len remaining' (j + 1) st'
  end.

Fixpoint outer_run (len : Z) (k : nat) (j : Z) (st : state) : result state :=
  match k with
  | O => Ok st
  | S k' => st' ← outer_body len j st; outer_run len k' (j + 1) st'
  end.

(** ** Output (lines 170-180) *)

(** The [size_t] of line 173 becomes an [int]. *)
Definition format_output (n : Z) (digits : list Z) : result string :=
  let num_decimal_digits_available :=
    as_int (if 0 <? Vec.size digits
            then as_size_t (Vec.size digits - 1) else 0) in
  let digits_to_print := Z.min n num_decimal_digits_available in
  access (print_loop (Z.to_nat digits_to_print) 0 digits "3.").

(** ** The generator (lines 105-181) *)

Definition calculatePiDigitsString (n : Z) : result string :=
  if n <=? 0 then Ok "3."%string
  else
    len ← vector_len n;
    v ← alloc_state_vector len;
    _ ← reserve (as_int (n + 5));
    st ← outer_loop n len (Z.to_nat (as_int (n + 3))) 0 (initial_state v);
    format_output n (calculated_digits st).

(** The state after [k] outer iterations of [generate n]. *)
Definition after (n : Z) (k : nat) : result state :=
  len ← vector_len n;
  v ← alloc_state_vector len;
  _ ← reserve (as_int (n + 5));
  outer_run len k 0 (initial_state v).

End Machine.

(** ** The arithmetic of one inner step *)

(** The entry and the carry the inner step at index [i] computes from the
    entry [ai] and the carry [carry]. *)
Definition machine_inner_arith (i ai carry : Z) : Z * Z :=
  let num := Machine.as_long_long (Machine.as_long_long (ai * 10) + carry) in
  let radix := Machine.as_int (Machine.as_int (2 * i) + 1) in
  (Machine.as_int (Z.rem num radix),
   Machine.as_long_long (Machine.as_long_long (Z.quot num radix) * i)).


(** * Properties *)

(** ** Allocation of the state vector *)

Lemma fill_loop_spec (count : nat) (i : nat) (v : list Z) :
  (i + count ≤ length v)%nat →
  fill_loop count (Z.of_nat i) v
  = Some (take i v ++ replicate count 2 ++ drop (i + count) v).
Proof.
  revert i v. induction count as [|count IH]; intros i v Hlen; simpl.
  - by rewrite Nat.add_0_r, take_drop.
  - unfold Vec.set. rewrite bool_decide_eq_true_2 by lia. simpl.
    rewrite Nat2Z.id.
    replace (Z.of_nat i + 1) with (Z.of_nat (S i)) by lia.
    rewrite IH by (rewrite length_insert; lia).
    f_equal.
    rewrite (take_S_r _ i 2) by (apply list_lookup_insert_eq; lia).
    rewrite take_insert_ge by lia.
    rewrite drop_insert_lt by lia.
    rewrite <- app_assoc. simpl.
    by replace (i + S count)%nat with (S (i + count))%nat by lia.
Qed.

Lemma alloc_state_vector_spec (len : Z) :
  alloc_state_vector len = Some (replicate (Z.to_nat len) 2).
Proof.
  unfold alloc_state_vector.
  rewrite (fill_loop_spec _ 0) by (rewrite length_replicate; lia).
  rewrite drop_ge by (rewrite length_replicate; lia).
  by rewrite app_nil_r.
Qed.

(** ** The radix invariant of the state vector *)

Lemma radix_inv_replicate (m : nat) : radix_inv (replicate m 2).
Proof.
  intros k x [-> _]%lookup_replicate. destruct k; lia.
Qed.

Lemma radix_inv_insert (v : list Z) (k : nat) (y : Z) :
  radix_inv v →
  0 ≤ y → (if k is O then y ≤ 9 else y < 2 * Z.of_nat k + 1) →
  radix_inv (<[k := y]> v).
Proof.
  intros Hv Hy0 Hy k' x Hx.
  destruct (decide (k = k')) as [<-|Hne].
  - apply list_lookup_insert_Some in Hx as [(_ & -> & _)|[? _]]; [|done].
    done.
  - rewrite list_lookup_insert_ne in Hx by done. by apply Hv.
Qed.

Lemma quot_carry_bound (num i : Z) :
  0 < i → 0 ≤ num ≤ 20 * (2 * i + 1) →
  0 ≤ Z.quot num (2 * i + 1) * i ≤ 20 * i.
Proof.
  intros Hi Hnum.
  rewrite Z.quot_div_nonneg by lia.
  assert (0 ≤ num / (2 * i + 1)) by (apply Z.div_pos; lia).
  assert (num / (2 * i + 1) ≤ 20).
  { apply Z.div_le_upper_bound; lia. }
  nia.
Qed.

(** One inner step keeps the length and the invariant, and its carry is
    between 0 and [20 * i]. *)
Lemma inner_body_inv (i : Z) (v : list Z) (carry : Z) :
  0 < i < Z.of_nat (length v) →
  radix_inv v →
  0 ≤ carry ≤ 20 * (i + 1) →
  ∃ v' carry',
    inner_body i v carry = Some (v', carry') ∧
    length v' = length v ∧ radix_inv v' ∧ 0 ≤ carry' ≤ 20 * i.
Proof.
  intros Hi Hv Hc. unfold inner_body, Vec.get, Vec.set.
  rewrite bool_decide_eq_true_2 by lia.
  destruct (lookup_lt_is_Some_2 v (Z.to_nat i)) as [ai Hai]; [lia|].
  rewrite Hai. simpl. rewrite bool_decide_eq_true_2 by lia. simpl.
  destruct (Hv _ _ Hai) as [Hai0 Hai1].
  destruct (Z.to_nat i) as [|k] eqn:Hk; [lia|].
  assert (Z.of_nat (S k) = i) as Hki by lia. rewrite Hki in Hai1.
  eexists _, _. split; [reflexivity|].
  split; [by rewrite length_insert|].
  split.
  - apply radix_inv_insert; [done| |rewrite Hki];
      apply Z.rem_bound_pos; lia.
  - apply quot_carry_bound; lia.
Qed.

Lemma inner_loop_inv (i : nat) (v : list Z) (carry : Z) :
  (i < length v)%nat →
  radix_inv v →
  0 ≤ carry ≤ 20 * (Z.of_nat i + 1) →
  ∃ v' carry',
    inner_loop i v carry = Some (v', carry') ∧
    length v' = length v ∧ radix_inv v' ∧ 0 ≤ carry' ≤ 20.
Proof.
  revert v carry. induction i as [|i IH]; intros v carry Hi Hv Hc.
  - exists v, carry. simpl. split_and!; try done; lia.
  - destruct (inner_body_inv (Z.of_nat (S i)) v carry) as
      (v1 & c1 & Hbody & Hlen1 & Hv1 & Hc1); [lia|done|lia|].
    destruct (IH v1 c1) as (v2 & c2 & Hloop & Hlen2 & Hv2 & Hc2);
      [lia|done|lia|].
    exists v2, c2. cbn [inner_loop]. rewrite Hbody. simpl.
    split_and!; try done; try lia; congruence.
Qed.

(** The inner loop leaves entry 0 alone. *)
Lemma inner_loop_head (i : nat) (v : list Z) (carry : Z) v' carry' :
  inner_loop i v carry = Some (v', carry') → v' !! 0%nat = v !! 0%nat.
Proof.
  revert v carry. induction i as [|i IH]; intros v carry Hloop.
  - by simplify_eq/=.
  - cbn [inner_loop] in Hloop. unfold inner_body, Vec.get, Vec.set in Hloop.
    repeat case_bool_decide; simplify_option_eq; try done.
    erewrite IH by done.
    apply list_lookup_insert_ne. lia.
Qed.

(** The digit extraction never leaves the vector, keeps its length and
    its invariant, and yields a candidate between 0 and 10, at most 2 above
    the entry 0 it started from. *)
Lemma digit_step_inv (len : Z) (v : list Z) :
  0 < len → length v = Z.to_nat len → radix_inv v →
  ∃ v' q,
    digit_step len v = Some (v', q) ∧
    length v' = length v ∧ radix_inv v' ∧ 0 ≤ q ≤ 10 ∧
    (∀ a0, v !! 0%nat = Some a0 → q ≤ a0 + 2).
Proof.
  intros Hlen Hv Hinv. unfold digit_step.
  destruct (inner_loop_inv (Z.to_nat (len - 1)) v 0) as
    (v1 & c1 & Hloop & Hlen1 & Hv1 & Hc1); [lia|done|lia|].
  rewrite Hloop. simpl. unfold Vec.get, Vec.set.
  rewrite !bool_decide_eq_true_2 by lia.
  destruct (lookup_lt_is_Some_2 v1 (Z.to_nat 0)) as [a0 Ha0]; [simpl; lia|].
  rewrite Ha0. simpl.
  destruct (Hv1 _ _ Ha0) as [Ha00 Ha01]. simpl in Ha01.
  eexists _, _. split; [reflexivity|].
  split; [by rewrite length_insert; congruence|].
  assert (0 ≤ a0 * 10 + c1 ≤ 110) as Hfin by lia.
  split.
  - pose proof (Z.rem_bound_pos (a0 * 10 + c1) 10).
    apply radix_inv_insert; [done| |]; simpl; lia.
  - rewrite Z.quot_div_nonneg by lia.
    assert (0 ≤ (a0 * 10 + c1) / 10) by (apply Z.div_pos; lia).
    assert ((a0 * 10 + c1) / 10 ≤ a0 + 2)
      by (apply Z.div_le_upper_bound; lia).
    split; [destruct (Z.leb_spec 10 ((a0 * 10 + c1) / 10)); lia|].
    intros a0' Ha0'. rewrite <- (inner_loop_head _ _ _ _ _ Hloop) in Ha0'.
    change (Z.to_nat 0) with 0%nat in Ha0. simplify_eq.
    destruct (Z.leb_spec 10 ((a0 * 10 + c1) / 10)); lia.
Qed.

(** ** The pass on the list structure *)

Lemma pass_length (i : Z) (l : list Z) (carry_in : Z) :
  length (pass i l carry_in).1 = length l.
Proof.
  revert i. induction l as [|x l IH]; intros i; simpl; [done|].
  specialize (IH (i + 1)).
  destruct (pass (i + 1) l carry_in) as [l' carry].
  destruct (Z.quotrem _ _). simpl in *. by rewrite IH.
Qed.

(** The loop over indices [p + length seg, ..., p + 1] of
    [pre ++ seg ++ post], where [seg] starts at index [p + 1], is the pass
    over [seg]; the loop then goes on below [seg]. *)
Lemma inner_loop_pass (seg pre post : list Z) (p : nat) (c0 : Z) :
  length pre = S p →
  inner_loop (p + length seg) (pre ++ seg ++ post) c0
  = inner_loop p (pre ++ (pass (Z.of_nat (S p)) seg c0).1 ++ post)
                 (pass (Z.of_nat (S p)) seg c0).2.
Proof.
  revert pre p. induction seg as [|x seg IH]; intros pre p Hpre.
  - by rewrite Nat.add_0_r.
  - replace (p + length (x :: seg))%nat with (S p + length seg)%nat
      by (simpl; lia).
    replace (pre ++ (x :: seg) ++ post) with ((pre ++ [x]) ++ seg ++ post)
      by (by rewrite <- app_assoc).
    rewrite (IH (pre ++ [x]) (S p)) by (rewrite length_app; simpl; lia).
    cbn [pass].
    replace (Z.of_nat (S p) + 1) with (Z.of_nat (S (S p))) by lia.
    destruct (pass (Z.of_nat (S (S p))) seg c0) as [seg' c1].
    unfold Z.quot, Z.rem.
    destruct (Z.quotrem (x * 10 + c1) (2 * Z.of_nat (S p) + 1))
      as [quotient remainder] eqn:Hqr.
    cbn [fst snd inner_loop]. unfold inner_body, Vec.get, Vec.set.
    unfold Z.quot, Z.rem.
    rewrite !bool_decide_eq_true_2
      by (rewrite ?length_app; simpl; lia).
    rewrite Nat2Z.id, <- app_assoc. simpl.
    rewrite <- Hpre, list_lookup_middle by done. simpl.
    rewrite insert_app_r_alt, Nat.sub_diag by lia.
    by rewrite Hpre, Hqr.
Qed.

(** Lines 123-135 on a vector whose length is [len]. *)
Lemma digit_step_list (len : Z) (a0 : Z) (tl : list Z) :
  length (a0 :: tl) = Z.to_nat len →
  digit_step len (a0 :: tl)
  = let '(tl', carry) := pass 1 tl 0 in
    let final_num := a0 * 10 + carry in
    let q := Z.quot final_num 10 in
    Some (Z.rem final_num 10 :: tl', if 10 <=? q then 10 else q).
Proof.
  intros Hlen. unfold digit_step.
  replace (Z.to_nat (len - 1)) with (length tl) by (simpl in Hlen; lia).
  pose proof (inner_loop_pass tl [a0] [] 0 0 eq_refl) as Hpass.
  rewrite app_nil_r in Hpass. simpl in Hpass.
  change (Z.of_nat 1) with 1 in Hpass. rewrite Hpass.
  destruct (pass 1 tl 0) as [tl' carry]. simpl.
  by rewrite app_nil_r.
Qed.

(** ** Invariants of the outer loop *)

Lemma push_loop_spec (count : nat) (x : Z) (v : list Z) :
  push_loop count x v = v ++ replicate count x.
Proof.
  revert v. induction count as [|count IH]; intros v; simpl.
  - by rewrite app_nil_r.
  - rewrite IH. unfold Vec.push_back. by rewrite <- app_assoc.
Qed.

Lemma loop_inv_initial (len : Z) :
  0 < len →
  loop_inv len 0 (initial_state (replicate (Z.to_nat len) 2)).
Proof.
  intros Hlen. split; simpl; try done; try lia.
  - by rewrite length_replicate.
  - apply radix_inv_replicate.
  - intros _. apply lookup_replicate_2. lia.
Qed.

Lemma buffering_inv (len j q : Z) (v : list Z) (st : state) :
  0 ≤ j → loop_inv len j st →
  length v = Z.to_nat len → radix_inv v →
  0 ≤ q ≤ 10 → (j = 0 → q ≤ 4) →
  loop_inv len (j + 1) (buffering j q v st).
Proof.
  intros Hj [Hlen Hrad Hfirst Hnines Hpre Hdig Hcount] Hv Hvrad Hq Hq0.
  assert (Forall is_digit [predigit st]) as Hpd
    by (apply Forall_singleton; unfold is_digit; lia).
  assert (Forall is_digit [predigit st + 1]) as Hpd1
    by (apply Forall_singleton; unfold is_digit; lia).
  assert (∀ m, Forall is_digit (replicate m 9)) as H9
    by (intros m; apply Forall_replicate; unfold is_digit; lia).
  assert (∀ m, Forall is_digit (replicate m 0)) as H0
    by (intros m; apply Forall_replicate; unfold is_digit; lia).
  unfold buffering, commit, rebuffer.
  assert (q < 9 ∨ q = 9 ∨ q = 10) as [Hlt|[->| ->]] by lia;
    [assert ((q <? 9) = true) as -> by lia| |];
    (destruct (Z.ltb_spec 0 j) as [Hpos|Hzero]; [|try lia]);
    cbn -[Z.max]; rewrite ?push_loop_spec; unfold Vec.push_back;
    (split; cbn -[Z.max]; unfold Vec.size in *;
     rewrite ?length_app, ?length_replicate; cbn -[Z.max];
     rewrite ?Forall_app; try done; try lia).
Qed.

Lemma outer_body_inv (len j : Z) (st : state) :
  0 < len → 0 ≤ j → loop_inv len j st →
  ∃ st', outer_body len j st = Some st' ∧ loop_inv len (j + 1) st'.
Proof.
  intros Hlen Hj Hinv. unfold outer_body.
  destruct (digit_step_inv len (a st)) as
    (v & q & Hstep & Hv & Hrad & Hq & Hhead);
    [done|apply Hinv|apply Hinv|].
  rewrite Hstep. simpl. eexists. split; [done|].
  apply buffering_inv; try done.
  - rewrite Hv. apply Hinv.
  - intros ->. specialize (Hhead 2 (inv_first _ _ _ Hinv eq_refl)). lia.
Qed.

Lemma outer_run_inv (len : Z) (k : nat) (j : Z) (st : state) :
  0 < len → 0 ≤ j → loop_inv len j st →
  ∃ st', outer_run len k j st = Some st' ∧
         loop_inv len (j + Z.of_nat k) st'.
Proof.
  intros Hlen. revert j st. induction k as [|k IH]; intros j st Hj Hinv.
  - exists st. split; [done|]. by rewrite Z.add_0_r.
  - destruct (outer_body_inv len j st) as (st1 & Hbody & Hinv1); try done.
    destruct (IH (j + 1) st1) as (st2 & Hrun & Hinv2); [lia|done|].
    exists st2. cbn [outer_run]. rewrite Hbody. simpl.
    split; [done|].
    by replace (j + Z.of_nat (S k)) with (j + 1 + Z.of_nat k) by lia.
Qed.

(** ** The outer loop and its exit *)

(** The loop stops after the first iteration that leaves enough committed
    entries, or else when [remaining] iterations are done: its result is
    the state after [k] iterations, none of the earlier ones had enough,
    and [k] is below [remaining] only on an early exit. *)
Lemma outer_loop_exit (n len : Z) (remaining : nat) (j : Z) (st : state) :
  0 < len → 0 ≤ j → loop_inv len j st →
  ∃ (k : nat) (st' : state),
    (k ≤ remaining)%nat ∧ (0 < remaining → 0 < k)%nat ∧
    outer_loop n len remaining j st = Some st' ∧
    outer_run len k j st = Some st' ∧
    loop_inv len (j + Z.of_nat k) st' ∧
    (∀ k' st'', (0 < k' < k)%nat →
       outer_run len k' j st = Some st'' → enough n st'' = false) ∧
    ((k < remaining)%nat → enough n st' = true) ∧
    (enough n st' = false → k = remaining).
Proof.
  intros Hlen. revert j st.
  induction remaining as [|r IH]; intros j st Hj Hinv.
  - exists 0%nat, st. rewrite Z.add_0_r. split_and!; try done; lia.
  - destruct (outer_body_inv len j st) as (st1 & Hbody & Hinv1); try done.
    cbn [outer_loop]. rewrite Hbody. simpl.
    destruct (enough n st1) eqn:Hen.
    + exists 1%nat, st1. cbn [outer_run]. rewrite Hbody. simpl.
      split_and!; try done; try lia. congruence.
    + destruct (IH (j + 1) st1) as
        (k & st2 & Hk & Hk0 & Hloop & Hrun & Hinv2 & Hbefore & Hexit & Hfull);
        [lia|done|].
      exists (S k), st2. cbn [outer_run]. rewrite Hbody. simpl.
      split_and!; try done; try lia.
      * by replace (j + Z.of_nat (S k)) with (j + 1 + Z.of_nat k) by lia.
      * intros [|k'] st'' Hk' Hrun'; [lia|].
        cbn [outer_run] in Hrun'. rewrite Hbody in Hrun'. simpl in Hrun'.
        destruct k' as [|k'']; [by simplify_eq/=|].
        apply (Hbefore (S k'') st''); [lia|done].
      * intros Hlt. apply Hexit. lia.
      * intros Hno. rewrite (Hfull Hno). done.
Qed.

(** ** The output *)

Lemma string_app_assoc (s1 s2 s3 : string) :
  ((s1 ++ s2) ++ s3 = s1 ++ (s2 ++ s3))%string.
Proof. induction s1 as [|c s1 IH]; simpl; [done|]. by rewrite IH. Qed.

Lemma show_int_digit (d : Z) :
  is_digit d → ∃ c, show_int d = String c EmptyString ∧ ascii_digit c.
Proof.
  unfold is_digit, ascii_digit. intros Hd.
  assert (d = 0 ∨ d = 1 ∨ d = 2 ∨ d = 3 ∨ d = 4 ∨
          d = 5 ∨ d = 6 ∨ d = 7 ∨ d = 8 ∨ d = 9) as Hcases by lia.
  repeat destruct Hcases as [->|Hcases]; try subst d;
    (eexists; split; [reflexivity|vm_compute; lia]).
Qed.

Lemma show_digits_length (ds : list Z) :
  Forall is_digit ds → String.length (show_digits ds) = length ds.
Proof.
  induction 1 as [|d ds Hd _ IH]; simpl; [done|].
  destruct (show_int_digit d Hd) as (c & -> & _). simpl. by rewrite IH.
Qed.

Lemma show_digits_ascii (ds : list Z) :
  Forall is_digit ds → string_forall ascii_digit (show_digits ds).
Proof.
  induction 1 as [|d ds Hd _ IH]; simpl; [done|].
  destruct (show_int_digit d Hd) as (c & -> & Hc). simpl. done.
Qed.

(** The print loop reads entries [i + 1, ..., i + count] and stays inside
    the sequence when it has that many. *)
Lemma print_loop_spec (count i : nat) (digits : list Z) (out : string) :
  (count ≤ length digits - (i + 1))%nat →
  print_loop count (Z.of_nat i) digits out
  = Some (out ++ show_digits (take count (drop (i + 1) digits)))%string.
Proof.
  revert i out. induction count as [|count IH]; intros i out Hlen.
  - simpl. f_equal. induction out as [|c out IHout]; simpl; [done|].
    by rewrite <- IHout.
  - cbn [print_loop]. unfold Vec.get.
    rewrite bool_decide_eq_true_2 by lia.
    replace (Z.to_nat (Z.of_nat i + 1)) with (i + 1)%nat by lia.
    destruct (lookup_lt_is_Some_2 digits (i + 1)) as [d Hd]; [lia|].
    rewrite Hd. simpl.
    replace (Z.of_nat i + 1) with (Z.of_nat (i + 1)) by lia.
    rewrite IH by lia.
    rewrite (drop_S _ d (i + 1)) by done. simpl.
    rewrite string_app_assoc.
    by replace (i + 1 + 1)%nat with (S (i + 1)) by lia.
Qed.

(** The output step is total: it prints the entries after the anchor, at
    most [n] of them. *)
Lemma format_output_spec (n : Z) (digits : list Z) :
  format_output n digits
  = Some ("3." ++ show_digits (take (Z.to_nat n) (drop 1 digits)))%string.
Proof.
  unfold format_output, Vec.size.
  set (avail := if 0 <? Z.of_nat (length digits)
                then Z.of_nat (length digits) - 1 else 0).
  assert (avail = Z.of_nat (length (drop 1 digits))) as Havail.
  { unfold avail. rewrite length_drop.
    destruct (Z.ltb_spec 0 (Z.of_nat (length digits))); lia. }
  clearbody avail.
  pose proof (print_loop_spec (Z.to_nat (Z.min n avail)) 0 digits "3.") as Hp.
  change (Z.of_nat 0) with 0 in Hp.
  rewrite Hp by (rewrite length_drop in Havail; lia).
  do 2 f_equal. simpl.
  destruct (Z.le_ge_cases n avail).
  - by rewrite Z.min_l.
  - rewrite Z.min_r, Havail, Nat2Z.id by done.
    rewrite !take_ge; [done|lia..].
Qed.

(** ** Running the generator on the list structure *)

Lemma vector_len_pos (n : Z) : 0 < n → 3 ≤ vector_len n.
Proof.
  intros Hn. unfold vector_len.
  assert (0 ≤ 10 * n / 3) by (apply Z.div_pos; lia). lia.
Qed.

Lemma fast_digit_step (len : Z) (v : list Z) :
  0 < len → length v = Z.to_nat len →
  digit_step len v = Fast.digit_step v.
Proof.
  intros Hlen Hv. destruct v as [|a0 tl]; [simpl in Hv; lia|].
  by rewrite (digit_step_list len).
Qed.

Lemma fast_digit_step_length (v v' : list Z) (q : Z) :
  Fast.digit_step v = Some (v', q) → length v' = length v.
Proof.
  destruct v as [|a0 tl]; [done|]. simpl.
  pose proof (pass_length 1 tl 0) as Hlen.
  destruct (pass 1 tl 0) as [tl' carry].
  intros [= <- <-]. simpl in *. by rewrite Hlen.
Qed.

Lemma fast_outer_body (len j : Z) (st : state) :
  0 < len → length (a st) = Z.to_nat len →
  outer_body len j st = Fast.outer_body j st ∧
  ∀ st', Fast.outer_body j st = Some st' → length (a st') = Z.to_nat len.
Proof.
  intros Hlen Hst. unfold outer_body, Fast.outer_body.
  rewrite (fast_digit_step len) by done. split; [done|].
  intros st'. destruct (Fast.digit_step (a st)) as [[v q]|] eqn:Hstep; [|done].
  simpl. intros [= <-].
  apply fast_digit_step_length in Hstep.
  unfold buffering. destruct (rebuffer _ _ _ _). simpl. congruence.
Qed.

Lemma fast_outer_loop (n len : Z) (remaining : nat) (j : Z) (st : state) :
  0 < len → length (a st) = Z.to_nat len →
  outer_loop n len remaining j st = Fast.outer_loop n remaining j st.
Proof.
  intros Hlen. revert j st.
  induction remaining as [|r IH]; intros j st Hst; [done|].
  cbn [outer_loop Fast.outer_loop].
  destruct (fast_outer_body len j st Hlen Hst) as [-> Hkeep].
  destruct (Fast.outer_body j st) as [st'|]; [simpl|done].
  destruct (enough n st'); [done|]. apply IH. by apply Hkeep.
Qed.

Lemma generate_fast (n : Z) : calculatePiDigitsString n = Fast.generate n.
Proof.
  unfold calculatePiDigitsString, Fast.generate.
  destruct (Z.leb_spec n 0) as [|Hn]; [done|].
  rewrite alloc_state_vector_spec. simpl.
  rewrite fast_outer_loop; [done| |simpl; by rewrite length_replicate].
  pose proof (vector_len_pos n Hn). lia.
Qed.

(** ** The generator as a whole *)

Lemma after_inv (n : Z) (k : nat) :
  0 < n →
  ∃ st, after n k = Some st ∧ loop_inv (vector_len n) (Z.of_nat k) st.
Proof.
  intros Hn. pose proof (vector_len_pos n Hn).
  destruct (outer_run_inv (vector_len n) k 0 (start n)) as (st & Hrun & Hinv);
    [lia|done|apply loop_inv_initial; lia|].
  exists st. split; [done|]. by rewrite Z.add_0_l in Hinv.
Qed.

Lemma after_S (n : Z) (k : nat) (st : state) :
  after n k = Some st →
  after n (S k) = outer_body (vector_len n) (Z.of_nat k) st.
Proof.
  unfold after. generalize (start n) as st0.
  assert (∀ j st0, outer_run (vector_len n) k j st0 = Some st →
    outer_run (vector_len n) (S k) j st0
    = outer_body (vector_len n) (j + Z.of_nat k) st) as Hgen.
  { induction k as [|k IH]; intros j st0 Hrun.
    - simpl in Hrun. simplify_eq. simpl. rewrite Z.add_0_r.
      by destruct (outer_body _ _ _).
    - cbn [outer_run] in Hrun |- *.
      destruct (outer_body (vector_len n) j st0) as [st1|]; [simpl in *|done].
      replace (j + Z.of_nat (S k)) with (j + 1 + Z.of_nat k) by lia.
      by rewrite <- (IH (j + 1) st1 Hrun). }
  intros st0 Hrun. by rewrite (Hgen 0 st0 Hrun), Z.add_0_l.
Qed.

(** [generate n] for [n > 0]: the loop ends after some [k] of its [n + 3]
    iterations, early only with enough committed entries, and the result
    is ["3."] followed by the entries after the anchor, at most [n]. *)
Lemma generate_run (n : Z) :
  0 < n →
  ∃ (k : nat) (st : state),
    (0 < k ≤ Z.to_nat (n + 3))%nat ∧
    outer_loop n (vector_len n) (Z.to_nat (n + 3)) 0 (start n) = Some st ∧
    after n k = Some st ∧
    loop_inv (vector_len n) (Z.of_nat k) st ∧
    (∀ k' st', (0 < k' < k)%nat → after n k' = Some st' →
       enough n st' = false) ∧
    ((k < Z.to_nat (n + 3))%nat → enough n st = true) ∧
    (enough n st = false → k = Z.to_nat (n + 3)) ∧
    calculatePiDigitsString n
    = Some ("3." ++ show_digits
              (take (Z.to_nat n) (drop 1 (calculated_digits st))))%string.
Proof.
  intros Hn. pose proof (vector_len_pos n Hn).
  destruct (outer_loop_exit n (vector_len n) (Z.to_nat (n + 3)) 0 (start n))
    as (k & st & Hk & Hk0 & Hloop & Hrun & Hinv & Hbefore & Hexit & Hfull);
    [lia|done|apply loop_inv_initial; lia|].
  exists k, st. rewrite Z.add_0_l in Hinv.
  split_and!; try done; try lia.
  unfold calculatePiDigitsString.
  destruct (Z.leb_spec n 0); [lia|].
  rewrite alloc_state_vector_spec. simpl.
  fold (start n). rewrite Hloop. simpl.
  apply format_output_spec.
Qed.

(** ** The steps of the inner pass *)

Lemma inner_step_inv i v c i' v' c' :
  inner_step (i, v, c) (i', v', c') →
  (i < length v)%nat → radix_inv v → 0 ≤ c ≤ 20 * (Z.of_nat i + 1) →
  i = S i' ∧ length v' = length v ∧ radix_inv v' ∧
  0 ≤ c' ≤ 20 * (Z.of_nat i' + 1).
Proof.
  inversion 1 as [i0 v0 c0 v1 c1 Hbody]; subst. intros Hi Hv Hc.
  destruct (inner_body_inv (Z.of_nat (S i')) v c) as
    (v2 & c2 & Hbody2 & Hlen & Hrad & Hc2); [lia|done|lia|].
  rewrite Hbody in Hbody2. simplify_eq. split_and!; try done; lia.
Qed.

(** Every configuration of a pass that starts inside the vector with a
    carry in range has the length and the invariant of the start, and a
    carry that is nonnegative and at most [20 * (i + 1)]. *)
Lemma inner_reach_inv (c1 c2 : nat * list Z * Z) :
  inner_reach c1 c2 →
  (c1.1.1 < length c1.1.2)%nat → radix_inv c1.1.2 →
  0 ≤ c1.2 ≤ 20 * (Z.of_nat c1.1.1 + 1) →
  (c2.1.1 ≤ c1.1.1)%nat ∧ length c2.1.2 = length c1.1.2 ∧
  radix_inv c2.1.2 ∧ 0 ≤ c2.2 ≤ 20 * (Z.of_nat c2.1.1 + 1).
Proof.
  induction 1 as [c|[[i1 v1] k1] [[i2 v2] k2] c3 Hstep _ IH];
    intros Hi Hv Hc; [done|]. simpl in *.
  destruct (inner_step_inv _ _ _ _ _ _ Hstep) as (-> & Hlen & Hrad & Hk2);
    try done.
  destruct IH as (Hle & Hlen3 & Hrad3 & Hc3); try done; [lia|].
  split_and!; try done; try lia; congruence.
Qed.

(** The configurations of [inner_reach] are those the loop goes through:
    the loop run from any of them ends as the loop run from the start. *)
Lemma inner_reach_loop (c1 c2 : nat * list Z * Z) :
  inner_reach c1 c2 →
  inner_loop c1.1.1 c1.1.2 c1.2 = inner_loop c2.1.1 c2.1.2 c2.2.
Proof.
  induction 1 as [c|c1 c2 c3 Hstep _ IH]; [done|].
  destruct Hstep as [i v c v' c' Hbody]. rewrite <- IH.
  cbn [fst snd inner_loop]. by rewrite Hbody.
Qed.

Lemma inner_loop_reach (i : nat) (v : list Z) (c : Z) v' c' :
  inner_loop i v c = Some (v', c') → inner_reach (i, v, c) (0%nat, v', c').
Proof.
  revert v c. induction i as [|i IH]; intros v c Hloop.
  - simpl in Hloop. simplify_eq. constructor.
  - cbn [inner_loop] in Hloop.
    destruct (inner_body (Z.of_nat (S i)) v c) as [[v1 c1]|] eqn:Hbody;
      [simpl in Hloop|done].
    eapply inner_reach_step; [by constructor|by apply IH].
Qed.

(** ** The code against the specification's wording *)




(** After the first iteration the code is the resolution of the
    specification on every clamped candidate; on the first iteration it
    sets [predigit] to the candidate unless the candidate is 10. *)
Lemma buffering_spec (j q : Z) (v : list Z) (st : state) :
  0 ≤ j → q ≤ 10 → (j = 0 → q ≤ 9) →
  spec_buffering (j =? 0) q st = Some (buffers (buffering j q v st)).
Proof.
  intros Hj Hq Hq0.
  unfold spec_buffering, spec_first, spec_resolution, buffers, buffering,
    commit, rebuffer.
  rewrite !push_loop_spec. unfold Vec.push_back.
  destruct (Z.eqb_spec j 0) as [->|Hne];
    [|assert ((0 <? j) = true) as -> by lia]; cbv beta iota;
    (assert (q < 9 ∨ q = 9 ∨ q = 10) as [Hlt|[->| ->]] by lia;
     [assert ((q <? 9) = true) as -> by lia| |]);
    simpl; rewrite <- ?app_assoc; try done; lia.
Qed.

(** ** The shape of the result *)

Lemma generate_total (n : Z) : is_Some (calculatePiDigitsString n).
Proof.
  destruct (Z.le_gt_cases n 0) as [Hn|Hn].
  - unfold calculatePiDigitsString.
    by assert ((n <=? 0) = true) as -> by lia.
  - destruct (generate_run n) as (k & st & Hrun); [lia|].
    destruct Hrun as (_ & _ & _ & _ & _ & _ & _ & ->). done.
Qed.

Lemma enough_size (n : Z) (st : state) :
  (enough n st = true ↔ n + 1 ≤ Vec.size (calculated_digits st)) ∧
  (enough n st = false ↔ Vec.size (calculated_digits st) < n + 1).
Proof.
  unfold enough.
  destruct (Z.leb_spec (n + 1) (Vec.size (calculated_digits st)));
    split; split; (done || lia).
Qed.

(** What [generate n] returns for [n > 0]: ["3."] and the decimal digits
    [ds], the committed entries after the anchor, at most [n] of them.
    There are [n] of them exactly when the loop ends with [n + 1]
    committed entries; otherwise all [n + 3] iterations are done, two or
    more nines are still buffered, and each buffered nine but one is a
    digit missing from the output. *)
Lemma generate_shape (n : Z) :
  0 < n →
  ∃ (st : state) (ds : list Z),
    outer_loop n (vector_len n) (Z.to_nat (n + 3)) 0 (start n) = Some st ∧
    ds = take (Z.to_nat n) (drop 1 (calculated_digits st)) ∧
    calculatePiDigitsString n = Some ("3." ++ show_digits ds)%string ∧
    Forall is_digit ds ∧
    string_forall ascii_digit (show_digits ds) ∧
    String.length ("3." ++ show_digits ds) = (2 + length ds)%nat ∧
    Z.of_nat (length ds) ≤ n ∧
    (Z.of_nat (length ds) = n ↔ n + 1 ≤ Vec.size (calculated_digits st)) ∧
    (Vec.size (calculated_digits st) < n + 1 →
     2 ≤ nines st ∧ Vec.size (calculated_digits st) = n + 2 - nines st).
Proof.
  intros Hn.
  destruct (generate_run n Hn) as
    (k & st & Hk & Hloop & _ & Hinv & _ & _ & Hfull & Hgen).
  exists st, (take (Z.to_nat n) (drop 1 (calculated_digits st))).
  assert (Forall is_digit
            (take (Z.to_nat n) (drop 1 (calculated_digits st)))) as Hds.
  { apply Forall_take, Forall_drop, Hinv. }
  split_and!; try done.
  - by apply show_digits_ascii.
  - simpl. by rewrite show_digits_length.
  - rewrite length_take. lia.
  - unfold Vec.size. rewrite length_take, length_drop. lia.
  - intros Hshort. apply enough_size in Hshort.
    specialize (Hfull Hshort). apply enough_size in Hshort.
    pose proof (inv_count _ _ _ Hinv). pose proof (inv_nines _ _ _ Hinv).
    lia.
Qed.

(** ** Line 110 in binary64 *)

Lemma binary64_len_exact (n : Z) :
  0 < n < 2 ^ 31 → binary64_len n = vector_len n.
Proof.
  intros Hn. unfold binary64_len, vector_len, binary64_floor_div3, round_div3.
  f_equal. set (N := 10 * n).
  assert (10 ≤ N < 2 ^ 35) as HN by (unfold N; lia).
  pose proof (Z.div_mod N 3 ltac:(lia)) as Hdm.
  pose proof (Z.mod_pos_bound N 3 ltac:(lia)) as Hmod.
  set (m := N / 3) in *.
  assert (0 < m < 2 ^ 35) as Hm by lia.
  assert (0 ≤ Z.log2 m < 35) as He.
  { split; [apply Z.log2_nonneg|]. apply Z.log2_lt_pow2; lia. }
  set (e := Z.log2 m) in *.
  assert (2 ^ 1 ≤ 2 ^ (52 - e)) as Hs by (apply Z.pow_le_mono_r; lia).
  set (s := 2 ^ (52 - e)) in *. change (2 ^ 1) with 2 in Hs.
  pose proof (Z.div_mod (2 * (N * s) + 3) 6 ltac:(lia)) as Hdm6.
  pose proof (Z.mod_pos_bound (2 * (N * s) + 3) 6 ltac:(lia)) as Hmod6.
  set (M := (2 * (N * s) + 3) / 6) in *.
  symmetry. apply (Z.div_unique M s m (M - s * m)); [|lia].
  left. nia.
Qed.

(** ** Machine ranges *)

(** With at most [2 ^ 30] entries in the state vector (n up to
    322122546) every value of the generator fits the C++ type that holds
    it, so that the integers of the embedding are those of the program. *)
Section MachineRanges.

Variable n : Z.
Hypothesis Hn : 0 < n.
Hypothesis Hlen : vector_len n ≤ 2 ^ 30.

(** The [int] counters and bounds: [n + 3], [n + 5], [len]. *)
Lemma counters_fit : n + 5 < 2 ^ 31 ∧ 0 < vector_len n < 2 ^ 31.
Proof.
  pose proof (vector_len_pos n Hn). unfold vector_len in *.
  pose proof (Z.mul_div_le (10 * n) 3 ltac:(lia)).
  pose proof (Z.mul_succ_div_gt (10 * n) 3 ltac:(lia)). lia.
Qed.

(** Inside the inner pass: the [int] values [i], [2 * i + 1] and [a[i]],
    and the [long long] values [carry] and [a[i] * 10 + carry]. *)
Lemma inner_values_fit (k : nat) (st : state) i v c :
  after n k = Some st →
  inner_reach (Z.to_nat (vector_len n - 1), a st, 0) (i, v, c) →
  2 * Z.of_nat i + 1 < 2 ^ 31 ∧
  0 ≤ c < 2 ^ 63 ∧
  ∀ (m : nat) (x : Z), v !! m = Some x →
    0 ≤ x < 2 ^ 31 ∧ 0 ≤ x * 10 + c < 2 ^ 63.
Proof.
  intros Hafter Hreach. pose proof (vector_len_pos n Hn).
  destruct (after_inv n k Hn) as (st0 & Hafter0 & Hinv). simplify_eq.
  apply inner_reach_inv in Hreach as (Hi & Hv & Hrad & Hc); simpl in *;
    [|rewrite (inv_length _ _ _ Hinv); lia|apply Hinv|lia].
  rewrite (inv_length _ _ _ Hinv) in Hv.
  split_and!; try lia.
  intros m x Hx. pose proof (lookup_lt_Some _ _ _ Hx).
  destruct (Hrad m x Hx) as [Hx0 Hxm]. destruct m; lia.
Qed.

(** The buffering scalars and the size of the committed sequence. *)
Lemma buffer_values_fit (k : nat) (st : state) :
  after n k = Some st →
  0 ≤ nines st ≤ Z.of_nat k ∧ 0 ≤ predigit st + 1 ≤ 9 ∧
  Vec.size (calculated_digits st) ≤ Z.of_nat k.
Proof.
  intros Hafter.
  destruct (after_inv n k Hn) as (st0 & Hafter0 & Hinv). simplify_eq.
  destruct Hinv as [_ _ _ Hnines Hpre _ Hcount]. unfold Vec.size in *. lia.
Qed.

End MachineRanges.

(** * The program on machine integers *)

(** ** Fixed-width integers *)

Lemma as_int_id (z : Z) : - 2 ^ 31 ≤ z < 2 ^ 31 → Machine.as_int z = z.
Proof.
  intros Hz. unfold Machine.as_int, Machine.wrap.
  change (2 ^ (32 - 1)) with (2 ^ 31). change (2 ^ 32) with (2 * 2 ^ 31).
  rewrite Z.mod_small by lia. lia.
Qed.

Lemma as_long_long_id (z : Z) :
  - 2 ^ 63 ≤ z < 2 ^ 63 → Machine.as_long_long z = z.
Proof.
  intros Hz. unfold Machine.as_long_long, Machine.wrap.
  change (2 ^ (64 - 1)) with (2 ^ 63). change (2 ^ 64) with (2 * 2 ^ 63).
  rewrite Z.mod_small by lia. lia.
Qed.

Lemma as_size_t_id (z : Z) : 0 ≤ z < 2 ^ 64 → Machine.as_size_t z = z.
Proof. intros Hz. unfold Machine.as_size_t. by rewrite Z.mod_small. Qed.

Lemma as_size_t_le (z : Z) : 0 ≤ z → 0 ≤ Machine.as_size_t z ≤ z.
Proof.
  intros Hz. unfold Machine.as_size_t.
  pose proof (Z.mod_le z (2 ^ 64) ltac:(lia) ltac:(lia)).
  pose proof (Z.mod_pos_bound z (2 ^ 64) ltac:(lia)). lia.
Qed.

(** A nonnegative value does not grow when it becomes an [int]. *)
Lemma as_int_le (z : Z) : 0 ≤ z → Machine.as_int z ≤ z.
Proof.
  intros Hz. unfold Machine.as_int, Machine.wrap.
  change (2 ^ (32 - 1)) with (2 ^ 31).
  pose proof (Z.mod_le (z + 2 ^ 31) (2 ^ 32) ltac:(lia) ltac:(lia)). lia.
Qed.

(** The [int] [2 * i + 1] is odd, overflowed or not. *)
Lemma machine_radix_odd (i : Z) :
  Machine.as_int (Machine.as_int (2 * i) + 1) mod 2 = 1.
Proof.
  unfold Machine.as_int, Machine.wrap.
  change (2 ^ (32 - 1)) with 2147483648. change (2 ^ 32) with 4294967296.
  Z.div_mod_to_equations. lia.
Qed.

(** ** Totality without regard to the values *)

(** The reads and writes of the program depend on the loop counters only:
    whatever the entries and the carries are, overflowed or not, every
    step stays inside the vector and keeps its length. *)

Lemma machine_inner_body_arith (i : Z) (v : list Z) (c ai : Z) :
  0 ≤ i → v !! Z.to_nat i = Some ai →
  Machine.inner_body i v c
  = Ok (<[Z.to_nat i := (machine_inner_arith i ai c).1]> v,
        (machine_inner_arith i ai c).2).
Proof.
  intros Hi Hai. pose proof (lookup_lt_Some _ _ _ Hai).
  unfold Machine.inner_body, machine_inner_arith, Vec.get, Vec.set.
  rewrite !bool_decide_eq_true_2 by lia. rewrite Hai.
  cbn [mbind result_bind access fst snd]. reflexivity.
Qed.

Lemma machine_inner_body_total (i : Z) (v : list Z) (c : Z) :
  0 ≤ i < Z.of_nat (length v) →
  ∃ v' c',
    Machine.inner_body i v c = Ok (v', c') ∧ length v' = length v.
Proof.
  intros Hi.
  destruct (lookup_lt_is_Some_2 v (Z.to_nat i)) as [ai Hai]; [lia|].
  rewrite (machine_inner_body_arith i v c ai) by (done || lia).
  eexists _, _. split; [reflexivity|]. by rewrite length_insert.
Qed.

Lemma machine_inner_loop_total (i : nat) (v : list Z) (c : Z) :
  (i < length v)%nat →
  ∃ v' c',
    Machine.inner_loop i v c = Ok (v', c') ∧ length v' = length v.
Proof.
  revert v c. induction i as [|i IH]; intros v c Hi.
  - by exists v, c.
  - destruct (machine_inner_body_total (Z.of_nat (S i)) v c) as
      (v1 & c1 & Hbody & Hlen1); [lia|].
    destruct (IH v1 c1) as (v2 & c2 & Hloop & Hlen2); [lia|].
    exists v2, c2. cbn [Machine.inner_loop]. rewrite Hbody.
    split; [done|congruence].
Qed.


Lemma machine_digit_step_total (len : Z) (v : list Z) :
  0 < len < 2 ^ 31 → length v = Z.to_nat len →
  ∃ v' q,
    Machine.digit_step len v = Ok (v', q) ∧ length v' = length v.
Proof.
  intros Hlen Hv. unfold Machine.digit_step.
  rewrite as_int_id by lia.
  destruct (machine_inner_loop_total (Z.to_nat (len - 1)) v 0) as
    (v1 & c1 & Hloop & Hlen1); [lia|].
  rewrite Hloop. unfold Vec.get, Vec.set.
  destruct (lookup_lt_is_Some_2 v1 (Z.to_nat 0)) as [a0 Ha0]; [simpl; lia|].
  cbn [mbind result_bind]. rewrite bool_decide_eq_true_2 by lia.
  rewrite Ha0. cbn [mbind result_bind access].
  rewrite bool_decide_eq_true_2 by lia. cbn [mbind result_bind access].
  eexists _, _. split; [reflexivity|].
  rewrite length_insert. congruence.
Qed.

Lemma machine_buffering_a (j q : Z) (v : list Z) (st : state) :
  a (Machine.buffering j q v st) = v.
Proof.
  unfold Machine.buffering. by destruct (Machine.rebuffer _ _ _ _).
Qed.

Lemma machine_outer_body_total (len j : Z) (st : state) :
  0 < len < 2 ^ 31 → length (a st) = Z.to_nat len →
  ∃ st',
    Machine.outer_body len j st = Ok st' ∧ length (a st') = Z.to_nat len.
Proof.
  intros Hlen Hv. unfold Machine.outer_body.
  destruct (machine_digit_step_total len (a st)) as (v & q & -> & Hv');
    [done..|].
  eexists. split; [reflexivity|].
  rewrite machine_buffering_a. congruence.
Qed.

Lemma machine_outer_run_total (len : Z) (k : nat) (j : Z) (st : state) :
  0 < len < 2 ^ 31 → length (a st) = Z.to_nat len →
  ∃ st',
    Machine.outer_run len k j st = Ok st' ∧ length (a st') = Z.to_nat len.
Proof.
  intros Hlen. revert j st. induction k as [|k IH]; intros j st Hv.
  - by exists st.
  - destruct (machine_outer_body_total len j st) as (st1 & Hbody & Hv1);
      [done..|].
    destruct (IH (j + 1) st1 Hv1) as (st2 & Hrun & Hv2).
    exists st2. cbn [Machine.outer_run]. by rewrite Hbody.
Qed.


(** The exit of the loop, as for the integers (lemma [outer_loop_exit]). *)
Lemma machine_outer_loop_exit (n len : Z) (remaining : nat) (j : Z)
    (st : state) :
  0 < len < 2 ^ 31 → length (a st) = Z.to_nat len →
  ∃ (k : nat) (st' : state),
    (k ≤ remaining)%nat ∧ (0 < remaining → 0 < k)%nat ∧
    Machine.outer_loop n len remaining j st = Ok st' ∧
    Machine.outer_run len k j st = Ok st' ∧
    (∀ k' st'', (0 < k' < k)%nat →
       Machine.outer_run len k' j st = Ok st'' →
       Machine.enough n st'' = false) ∧
    ((k < remaining)%nat → Machine.enough n st' = true) ∧
    (Machine.enough n st' = false → k = remaining).
Proof.
  intros Hlen. revert j st.
  induction remaining as [|r IH]; intros j st Hv.
  - exists 0%nat, st. split_and!; try done; lia.
  - destruct (machine_outer_body_total len j st) as (st1 & Hbody & Hv1);
      [done..|].
    cbn [Machine.outer_loop]. rewrite Hbody. cbn [mbind result_bind].
    destruct (Machine.enough n st1) eqn:Hen.
    + exists 1%nat, st1. cbn [Machine.outer_run]. rewrite Hbody.
      split_and!; try done; try lia. congruence.
    + destruct (IH (j + 1) st1 Hv1) as
        (k & st2 & Hk & Hk0 & Hloop & Hrun & Hbefore & Hexit & Hfull).
      exists (S k), st2. cbn [Machine.outer_run]. rewrite Hbody.
      cbn [mbind result_bind].
      split_and!; try done; try lia.
      * intros [|k'] st'' Hk' Hrun'; [lia|].
        cbn [Machine.outer_run] in Hrun'. rewrite Hbody in Hrun'.
        cbn [mbind result_bind] in Hrun'.
        destruct k' as [|k'']; [by simplify_eq/=|].
        apply (Hbefore (S k'') st''); [lia|done].
      * intros Hlt. apply Hexit. lia.
      * intros Hno. by rewrite (Hfull Hno).
Qed.

Lemma machine_format_output_total (n : Z) (digits : list Z) :
  ∃ s : string, Machine.format_output n digits = Ok s.
Proof.
  unfold Machine.format_output, Vec.size.
  set (avail := Machine.as_int _).
  assert (avail ≤ Z.of_nat (length digits) - 1 ∨ avail ≤ 0) as Havail.
  { unfold avail. destruct (Z.ltb_spec 0 (Z.of_nat (length digits))).
    - left. pose proof (as_size_t_le (Z.of_nat (length digits) - 1)).
      pose proof (as_int_le (Machine.as_size_t (Z.of_nat (length digits) - 1))).
      lia.
    - right. by rewrite as_int_id. }
  clearbody avail.
  pose proof (print_loop_spec (Z.to_nat (Z.min n avail)) 0 digits "3.") as Hp.
  change (Z.of_nat 0) with 0 in Hp. rewrite Hp by lia.
  by eexists.
Qed.

(** ** Allocation *)

Lemma vector_len_bound (n : Z) :
  0 < n ≤ 644245093 → 3 ≤ vector_len n ≤ 2147483646.
Proof.
  intros Hn. unfold vector_len.
  assert (0 ≤ 10 * n / 3) by (apply Z.div_pos; lia).
  assert (10 * n / 3 < 2147483644) by (apply Z.div_lt_upper_bound; lia).
  lia.
Qed.

(** Up to [n = 644245093] line 110 yields the [floor (10 n / 3) + 3] of
    the integers. *)
Lemma machine_vector_len (n : Z) :
  0 < n ≤ 644245093 → Machine.vector_len n = Ok (vector_len n).
Proof.
  intros Hn. pose proof (vector_len_bound n Hn) as Hb.
  pose proof (binary64_len_exact n ltac:(lia)) as He.
  unfold binary64_len in He.
  unfold Machine.vector_len. cbv zeta.
  assert (binary64_floor_div3 (10 * n) = vector_len n - 3) as -> by lia.
  unfold Machine.is_int.
  assert ((- 2 ^ 31 <=? vector_len n - 3) = true) as -> by lia.
  assert ((vector_len n - 3 <? 2 ^ 31) = true) as -> by lia.
  cbn [andb]. f_equal. rewrite as_int_id by lia. lia.
Qed.

Lemma machine_alloc_state_vector (len : Z) :
  0 ≤ len →
  Machine.alloc_state_vector len = Ok (replicate (Z.to_nat len) 2).
Proof.
  intros Hlen. unfold Machine.alloc_state_vector.
  assert ((len <? 0) = false) as -> by lia.
  change (fill_loop _ _ _) with (alloc_state_vector len).
  by rewrite alloc_state_vector_spec.
Qed.

Lemma machine_reserve (n : Z) :
  0 < n ≤ 644245093 → Machine.reserve (Machine.as_int (n + 5)) = Ok tt.
Proof.
  intros Hn. rewrite as_int_id by lia. unfold Machine.reserve.
  by assert ((n + 5 <? 0) = false) as -> by lia.
Qed.

(** The iterations of [generate n] start from [start n]. *)
Lemma machine_after_start (n : Z) (k : nat) :
  0 < n ≤ 644245093 →
  Machine.after n k = Machine.outer_run (vector_len n) k 0 (start n).
Proof.
  intros Hn. pose proof (vector_len_bound n Hn).
  unfold Machine.after.
  rewrite machine_vector_len by done. cbn [mbind result_bind].
  rewrite machine_alloc_state_vector by lia. cbn [mbind result_bind].
  by rewrite machine_reserve.
Qed.

Lemma machine_after_length (n : Z) (k : nat) :
  0 < n ≤ 644245093 →
  ∃ st, Machine.after n k = Ok st ∧ length (a st) = Z.to_nat (vector_len n).
Proof.
  intros Hn. pose proof (vector_len_bound n Hn).
  rewrite machine_after_start by done.
  apply machine_outer_run_total; [lia|].
  unfold start. simpl. by rewrite length_replicate.
Qed.


(** ** The generator as a whole *)

Lemma machine_enough_size (n : Z) (st : state) :
  0 ≤ n + 1 < 2 ^ 31 →
  (Machine.enough n st = true ↔ n + 1 ≤ Vec.size (calculated_digits st)) ∧
  (Machine.enough n st = false ↔ Vec.size (calculated_digits st) < n + 1).
Proof.
  intros Hn. unfold Machine.enough.
  rewrite as_int_id, as_size_t_id by lia.
  destruct (Z.leb_spec (n + 1) (Vec.size (calculated_digits st)));
    split; split; (done || lia).
Qed.

(** [generate n] for [0 < n <= 644245093]: the loop ends after some [k] of
    its [n + 3] iterations, early only with enough committed entries, and
    the result is the output of the state it ends in. *)
Lemma machine_generate_run (n : Z) :
  0 < n ≤ 644245093 →
  ∃ (k : nat) (st : state),
    (0 < k ≤ Z.to_nat (n + 3))%nat ∧
    Machine.outer_loop n (vector_len n) (Z.to_nat (n + 3)) 0 (start n)
    = Ok st ∧
    Machine.after n k = Ok st ∧
    (∀ k' st', (0 < k' < k)%nat → Machine.after n k' = Ok st' →
       Machine.enough n st' = false) ∧
    ((k < Z.to_nat (n + 3))%nat → Machine.enough n st = true) ∧
    Machine.calculatePiDigitsString n
    = Machine.format_output n (calculated_digits st).
Proof.
  intros Hn. pose proof (vector_len_bound n Hn).
  destruct (machine_outer_loop_exit n (vector_len n) (Z.to_nat (n + 3)) 0
              (start n)) as
    (k & st & Hk & Hk0 & Hloop & Hrun & Hbefore & Hexit & _).
  { lia. }
  { unfold start. simpl. by rewrite length_replicate. }
  exists k, st. split_and!; try done; try lia.
  - by rewrite machine_after_start.
  - intros k' st' Hk'. rewrite machine_after_start by done.
    by apply Hbefore.
  - unfold Machine.calculatePiDigitsString.
    destruct (Z.leb_spec n 0); [lia|].
    rewrite machine_vector_len by done. cbn [mbind result_bind].
    rewrite machine_alloc_state_vector by lia. cbn [mbind result_bind].
    rewrite machine_reserve by done. cbn [mbind result_bind].
    rewrite as_int_id by lia. fold (start n). by rewrite Hloop.
Qed.

(** ** Agreement with the integers *)

(** As long as the vector has at most [2 ^ 30] entries the values of a
    pass are in the ranges of their types (the radix invariant bounds them)
    and no reduction changes a value. *)

Lemma machine_inner_body_exact (i : Z) (v : list Z) (c : Z) :
  0 < i < Z.of_nat (length v) → Z.of_nat (length v) ≤ 2 ^ 30 →
  radix_inv v → 0 ≤ c ≤ 20 * (i + 1) →
  Machine.inner_body i v c = access (inner_body i v c).
Proof.
  intros Hi Hlen Hv Hc.
  destruct (lookup_lt_is_Some_2 v (Z.to_nat i)) as [ai Hai]; [lia|].
  rewrite (machine_inner_body_arith i v c ai) by (done || lia).
  unfold inner_body, Vec.get, Vec.set.
  rewrite !bool_decide_eq_true_2 by lia. rewrite Hai.
  cbn [mbind option_bind access].
  destruct (Hv _ _ Hai) as [Hai0 Hai1].
  destruct (Z.to_nat i) as [|m] eqn:Hm; [lia|].
  assert (Z.of_nat (S m) = i) as Hmi by lia. rewrite Hmi in Hai1.
  unfold machine_inner_arith. cbn [fst snd].
  rewrite (as_long_long_id (ai * 10)) by lia.
  rewrite (as_long_long_id (ai * 10 + c)) by lia.
  rewrite (as_int_id (2 * i)) by lia.
  rewrite (as_int_id (2 * i + 1)) by lia.
  pose proof (Z.rem_bound_pos (ai * 10 + c) (2 * i + 1)
                ltac:(lia) ltac:(lia)).
  pose proof (quot_carry_bound (ai * 10 + c) i ltac:(lia) ltac:(lia)).
  assert (0 ≤ Z.quot (ai * 10 + c) (2 * i + 1) ≤ 20).
  { rewrite Z.quot_div_nonneg by lia. split; [apply Z.div_pos; lia|].
    apply Z.div_le_upper_bound; lia. }
  rewrite (as_int_id (Z.rem _ _)) by lia.
  rewrite (as_long_long_id (Z.quot _ _)) by lia.
  by rewrite as_long_long_id by lia.
Qed.

Lemma machine_inner_loop_exact (i : nat) (v : list Z) (c : Z) :
  (i < length v)%nat → Z.of_nat (length v) ≤ 2 ^ 30 →
  radix_inv v → 0 ≤ c ≤ 20 * (Z.of_nat i + 1) →
  Machine.inner_loop i v c = access (inner_loop i v c).
Proof.
  revert v c. induction i as [|i IH]; intros v c Hi Hlen Hv Hc; [done|].
  cbn [Machine.inner_loop inner_loop].
  rewrite machine_inner_body_exact by (done || lia).
  destruct (inner_body_inv (Z.of_nat (S i)) v c) as
    (v1 & c1 & -> & Hlen1 & Hv1 & Hc1); [lia|done|lia|].
  cbn [mbind result_bind option_bind access].
  apply IH; [lia|lia|done|lia].
Qed.

Lemma machine_digit_step_exact (len : Z) (v : list Z) :
  0 < len ≤ 2 ^ 30 → length v = Z.to_nat len → radix_inv v →
  Machine.digit_step len v = access (digit_step len v).
Proof.
  intros Hlen Hv Hrad. unfold Machine.digit_step, digit_step.
  rewrite as_int_id by lia.
  rewrite machine_inner_loop_exact by (done || lia).
  destruct (inner_loop_inv (Z.to_nat (len - 1)) v 0) as
    (v1 & c1 & -> & Hlen1 & Hv1 & Hc1); [lia|done|lia|].
  cbn [mbind result_bind option_bind access]. unfold Vec.get, Vec.set.
  rewrite !bool_decide_eq_true_2 by lia.
  destruct (lookup_lt_is_Some_2 v1 (Z.to_nat 0)) as [a0 Ha0]; [simpl; lia|].
  rewrite Ha0. cbn [mbind result_bind option_bind access].
  destruct (Hv1 _ _ Ha0) as [Ha00 Ha01]. simpl in Ha01.
  rewrite (as_long_long_id (a0 * 10)) by lia.
  rewrite (as_long_long_id (a0 * 10 + c1)) by lia.
  pose proof (Z.rem_bound_pos (a0 * 10 + c1) 10 ltac:(lia) ltac:(lia)).
  assert (0 ≤ Z.quot (a0 * 10 + c1) 10 ≤ 11).
  { rewrite Z.quot_div_nonneg by lia. split; [apply Z.div_pos; lia|].
    apply Z.div_le_upper_bound; lia. }
  by rewrite !as_int_id by lia.
Qed.

Lemma machine_buffering_exact (j q : Z) (v : list Z) (st : state) :
  0 ≤ nines st < 2 ^ 31 - 1 → 0 ≤ predigit st < 2 ^ 31 - 1 →
  Machine.buffering j q v st = buffering j q v st.
Proof.
  intros Hnines Hpre.
  unfold Machine.buffering, buffering, Machine.commit, commit,
    Machine.rebuffer, rebuffer.
  by rewrite !as_int_id by lia.
Qed.

Lemma machine_outer_body_exact (len j : Z) (st : state) :
  0 < len ≤ 2 ^ 30 → 0 ≤ j < 2 ^ 31 → loop_inv len j st →
  Machine.outer_body len j st = access (outer_body len j st).
Proof.
  intros Hlen Hj Hinv. unfold Machine.outer_body, outer_body.
  rewrite machine_digit_step_exact by (done || apply Hinv).
  destruct (digit_step_inv len (a st)) as (v & q & -> & _);
    [lia|apply Hinv..|].
  cbn [mbind result_bind option_bind access].
  rewrite machine_buffering_exact; [done| |].
  - pose proof (inv_count _ _ _ Hinv). pose proof (inv_nines _ _ _ Hinv).
    unfold Vec.size in *. lia.
  - pose proof (inv_predigit _ _ _ Hinv). lia.
Qed.


Lemma machine_outer_loop_exact (n len : Z) (remaining : nat) (j : Z)
    (st : state) :
  0 < len ≤ 2 ^ 30 → 0 ≤ n + 1 < 2 ^ 31 →
  0 ≤ j → j + Z.of_nat remaining ≤ 2 ^ 31 → loop_inv len j st →
  Machine.outer_loop n len remaining j st
  = access (outer_loop n len remaining j st).
Proof.
  intros Hlen Hn. revert j st.
  induction remaining as [|r IH]; intros j st Hj Hr Hinv; [done|].
  cbn [Machine.outer_loop outer_loop].
  rewrite machine_outer_body_exact by (done || lia).
  destruct (outer_body_inv len j st) as (st1 & -> & Hinv1); [lia|done..|].
  cbn [mbind result_bind option_bind access].
  assert (Machine.enough n st1 = enough n st1) as ->.
  { unfold Machine.enough, enough. by rewrite as_int_id, as_size_t_id by lia. }
  destruct (enough n st1); [done|].
  apply IH; [lia|lia|done].
Qed.

Lemma machine_format_output_exact (n : Z) (digits : list Z) :
  Z.of_nat (length digits) ≤ 2 ^ 31 →
  Machine.format_output n digits = access (format_output n digits).
Proof.
  intros Hsize. unfold Machine.format_output, format_output, Vec.size.
  destruct (Z.ltb_spec 0 (Z.of_nat (length digits))).
  - by rewrite as_size_t_id, as_int_id by lia.
  - by rewrite as_int_id by lia.
Qed.

Lemma vector_len_small (n : Z) :
  0 < n ≤ 322122546 → 3 ≤ vector_len n ≤ 2 ^ 30.
Proof.
  intros Hn. unfold vector_len.
  assert (0 ≤ 10 * n / 3) by (apply Z.div_pos; lia).
  assert (10 * n / 3 ≤ 1073741820) by (apply Z.div_le_upper_bound; lia).
  lia.
Qed.


(** Up to [n = 322122546] the program on machine integers returns what
    the program on the integers returns. *)
Lemma machine_generate_exact (n : Z) :
  n ≤ 322122546 →
  Machine.calculatePiDigitsString n = access (calculatePiDigitsString n).
Proof.
  intros Hmax. unfold Machine.calculatePiDigitsString.
  destruct (Z.leb_spec n 0) as [Hn|Hn].
  - unfold calculatePiDigitsString.
    by assert ((n <=? 0) = true) as -> by lia.
  - pose proof (vector_len_small n ltac:(lia)).
    destruct (generate_run n Hn) as
      (k & st & Hk & Hloop & _ & Hinv & _ & _ & _ & ->).
    rewrite machine_vector_len by lia. cbn [mbind result_bind].
    rewrite machine_alloc_state_vector by lia. cbn [mbind result_bind].
    rewrite machine_reserve by lia. cbn [mbind result_bind].
    rewrite as_int_id by lia. fold (start n).
    rewrite machine_outer_loop_exact;
      [|lia|lia|lia|lia|apply loop_inv_initial; lia].
    rewrite Hloop. cbn [mbind result_bind access].
    rewrite machine_format_output_exact, format_output_spec; [done|].
    pose proof (inv_count _ _ _ Hinv). pose proof (inv_nines _ _ _ Hinv).
    unfold Vec.size in *. lia.
Qed.


Lemma machine_inner_reach_length (c1 c2 : nat * list Z * Z) :
  Machine.inner_reach c1 c2 → length c2.1.2 = length c1.1.2.
Proof.
  induction 1 as [c|c1 c2 c3 Hstep _ IH]; [done|].
  rewrite IH. destruct Hstep as [i v c v' c' Hbody]. simpl.
  unfold Machine.inner_body, Vec.get, Vec.set in Hbody.
  destruct (bool_decide (0 ≤ Z.of_nat (S i))); [|done].
  destruct (v !! Z.to_nat (Z.of_nat (S i))) as [ai|]; [|done].
  cbn in Hbody.
  destruct (bool_decide (0 ≤ Z.of_nat (S i) < Z.of_nat (length v)));
    [|done].
  cbn in Hbody. injection Hbody as <- <-. by rewrite length_insert.
Qed.

(** ** The last entry of the vector *)

(** The entry at index [len - 1] is the first one a pass normalizes, with
    carry 0, and nothing else of the iteration touches it: along a run it
    evolves on its own, whatever the rest of the vector holds. *)




(** ** The size of the committed sequence *)





(** * Main results *)

(** C1 (evaluation at the failing input). [generate 359] has 358 digits
    after ["3."], one less than requested: the candidates of the last two
    of the 362 iterations are both 9, so the loop ends with two buffered
    nines and only 359 committed entries, the anchor included. *)
Theorem generate_359_is_one_digit_short :
  let s := "3.1415926535897932384626433832795028841971693993751058209749445923078164062862089986280348253421170679821480865132823066470938446095505822317253594081284811174502841027019385211055596446229489549303819644288109756659334461284756482337867831652712019091456485669234603486104543266482133936072602491412737245870066063155881748815209209628292540917153643678925903"%string in
  calculatePiDigitsString 359 = Some s ∧
  String.length s = (2 + 358)%nat.
Proof. rewrite generate_fast. vm_compute. done. Qed.

(** C2. [generate 1] is ["3.1"], [generate 10] is ["3.1415926535"] and
    [generate 50] is ["3."] followed by the first 50 decimals of pi. *)
Theorem generate_reference_values :
  calculatePiDigitsString 1 = Some "3.1"%string ∧
  calculatePiDigitsString 10 = Some "3.1415926535"%string ∧
  calculatePiDigitsString 50
  = Some ("3." ++ "14159265358979323846264338327950288419716939937510")%string.
Proof. rewrite !generate_fast. vm_compute. done. Qed.

(** C3 (evaluation at the failing input). [generate 2] is ["3.13"] and
    [generate 3] is ["3.141"]: the digits ["13"] of the first are not a
    prefix of the digits ["141"] of the second. *)
Theorem generate_2_not_prefix_of_generate_3 :
  calculatePiDigitsString 2 = Some "3.13"%string ∧
  calculatePiDigitsString 3 = Some "3.141"%string ∧
  String.prefix "13" "141" = false.
Proof. rewrite !generate_fast. vm_compute. done. Qed.

(** C4. In every outer iteration of [generate n], [n > 0], the code
    buffers as the specification says: iteration [k] starts in a state
    [st], extracts a candidate [q], and the committed sequence, [nines] and
    [predigit] it ends with are those of [spec_buffering]: on the first
    iteration nothing is committed and [predigit] becomes [q]; on the later
    ones [q < 9] commits [predigit] and [nines] 9s, [q = 10] commits
    [predigit + 1] and [nines] 0s, both leaving [predigit] at [q] resp. 0
    and [nines] at 0, and [q = 9] commits nothing and increments [nines]. *)
Theorem buffering_resolution (n : Z) (k : nat) :
  0 < n →
  ∃ (st : state) (v : list Z) (q : Z),
    after n k = Some st ∧
    digit_step (vector_len n) (a st) = Some (v, q) ∧
    after n (S k) = Some (buffering (Z.of_nat k) q v st) ∧
    spec_buffering (Z.of_nat k =? 0) q st
    = Some (buffers (buffering (Z.of_nat k) q v st)).
Proof.
  intros Hn. pose proof (vector_len_pos n Hn).
  destruct (after_inv n k Hn) as (st & Hafter & Hinv).
  destruct (digit_step_inv (vector_len n) (a st)) as
    (v & q & Hstep & _ & _ & Hq & Hhead); [lia|apply Hinv..|].
  exists st, v, q. split_and!; try done.
  - rewrite (after_S n k st Hafter). unfold outer_body. by rewrite Hstep.
  - apply buffering_spec; [lia|lia|].
    intros Hk. specialize (Hhead 2 (inv_first _ _ _ Hinv Hk)). lia.
Qed.

Lemma buffering_resolution_witness :
  0 < 5 ∧
  ∃ (st : state) (v : list Z) (q : Z),
    after 5 3 = Some st ∧
    digit_step (vector_len 5) (a st) = Some (v, q) ∧
    after 5 4 = Some (buffering 3 q v st) ∧
    spec_buffering false q st = Some (buffers (buffering 3 q v st)).
Proof. split; [lia|]. apply (buffering_resolution 5 3). lia. Defined.




(** C6. For every [n <= 0], [generate n] is ["3."], with no digit and no
    failure, as for [n = 0]. *)
Theorem generate_nonpositive (n : Z) :
  n ≤ 0 →
  calculatePiDigitsString n = Some "3."%string ∧
  calculatePiDigitsString n = calculatePiDigitsString 0.
Proof.
  intros Hn. unfold calculatePiDigitsString.
  by assert ((n <=? 0) = true) as -> by lia.
Qed.

Lemma generate_nonpositive_witness :
  -7 ≤ 0 ∧
  calculatePiDigitsString (-7) = Some "3."%string ∧
  calculatePiDigitsString (-7) = calculatePiDigitsString 0.
Proof. split; [lia|]. apply (generate_nonpositive (-7)). lia. Defined.

(** C7 (failing input). For [n = 644245094] the floor of line 110 is
    2147483646, the [int] addition of 3 overflows to -2147483647, and
    [std::vector<int> a(len)] throws [std::length_error]: [generate]
    returns no string and the outer loop is not reached. From
    [n = 644245095] on the floor is no [int] and its conversion is
    undefined. *)
Lemma generate_throws_at_644245094 :
  Machine.vector_len 644245094 = Ok (-2147483647) ∧
  Machine.calculatePiDigitsString 644245094 = Err length_error ∧
  Machine.after 644245094 0 = Err length_error ∧
  Machine.calculatePiDigitsString 644245095 = Err cast_out_of_range.
Proof. split_and!; vm_compute; reflexivity. Qed.

(** C7 (in the range of [int]). [generate n] returns a string for every
    [n <= 644245093]. For [0 < n <= 644245093] the outer loop runs [k]
    iterations with [1 <= k <= n + 3] and stops in the state the [k]-th
    iteration leaves, from which the result is printed: no earlier
    iteration left [n + 1] committed entries, and when [k < n + 3] the
    [k]-th one did. *)
Theorem generate_terminates (n : Z) :
  n ≤ 644245093 →
  (∃ s : string, Machine.calculatePiDigitsString n = Ok s) ∧
  (0 < n →
   ∃ (k : nat) (st : state),
     1 ≤ Z.of_nat k ≤ n + 3 ∧
     Machine.outer_loop n (vector_len n) (Z.to_nat (n + 3)) 0 (start n)
     = Ok st ∧
     Machine.after n k = Ok st ∧
     Machine.calculatePiDigitsString n
     = Machine.format_output n (calculated_digits st) ∧
     (∀ k' st', (0 < k' < k)%nat → Machine.after n k' = Ok st' →
        Vec.size (calculated_digits st') < n + 1) ∧
     (Z.of_nat k < n + 3 → n + 1 ≤ Vec.size (calculated_digits st))).
Proof.
  intros Hmax. split.
  - destruct (Z.le_gt_cases n 0) as [Hn|Hn].
    + exists "3."%string. unfold Machine.calculatePiDigitsString.
      by assert ((n <=? 0) = true) as -> by lia.
    + destruct (machine_generate_run n ltac:(lia)) as
        (k & st & _ & _ & _ & _ & _ & ->).
      apply machine_format_output_total.
  - intros Hn.
    destruct (machine_generate_run n ltac:(lia)) as
      (k & st & Hk & Hloop & Hafter & Hbefore & Hexit & Hgen).
    exists k, st. split_and!; try done; try lia.
    + intros k' st' Hk' Hafter'.
      apply (machine_enough_size n st' ltac:(lia)). by apply (Hbefore k').
    + intros Hlt. apply (machine_enough_size n st ltac:(lia)), Hexit. lia.
Qed.

Lemma generate_terminates_witness :
  6 ≤ 644245093 ∧
  (∃ s : string, Machine.calculatePiDigitsString 6 = Ok s) ∧
  0 < 6 ∧
  ∃ (k : nat) (st : state),
    1 ≤ Z.of_nat k ≤ 6 + 3 ∧
    Machine.outer_loop 6 (vector_len 6) (Z.to_nat (6 + 3)) 0 (start 6)
    = Ok st ∧
    Machine.after 6 k = Ok st ∧
    Machine.calculatePiDigitsString 6
    = Machine.format_output 6 (calculated_digits st) ∧
    (∀ k' st', (0 < k' < k)%nat → Machine.after 6 k' = Ok st' →
       Vec.size (calculated_digits st') < 6 + 1) ∧
    (Z.of_nat k < 6 + 3 → 6 + 1 ≤ Vec.size (calculated_digits st)).
Proof.
  split; [lia|].
  destruct (generate_terminates 6 ltac:(lia)) as [Hsome Hloop].
  split; [exact Hsome|]. split; [lia|]. apply Hloop. lia.
Defined.

(** C8 (failing input). For [n = 644245094] the length of the
    specification is [floor (10 n / 3) + 3 = 2147483649]; line 110 yields
    the [int] -2147483647, and no vector is allocated: the constructor
    throws [std::length_error] and no iteration has a state. *)
Lemma state_vector_length_fails_at_644245094 :
  10 * 644245094 / 3 + 3 = 2147483649 ∧
  Machine.vector_len 644245094 = Ok (-2147483647) ∧
  Machine.alloc_state_vector (-2147483647) = Err length_error ∧
  Machine.after 644245094 0 = Err length_error.
Proof. split_and!; vm_compute; reflexivity. Qed.

(** C8 (in the range of [int]). For [0 < n <= 644245093] line 110 yields
    [floor (10 * n / 3) + 3], the state vector is allocated with that many
    entries, all of them 2, and it has that length at the start of every
    outer iteration and at every step of every inner pass. *)
Theorem state_vector_length (n : Z) (k : nat) :
  0 < n ≤ 644245093 →
  Machine.vector_len n = Ok (10 * n / 3 + 3) ∧
  Machine.alloc_state_vector (10 * n / 3 + 3)
  = Ok (replicate (Z.to_nat (10 * n / 3 + 3)) 2) ∧
  Machine.after n 0
  = Ok (initial_state (replicate (Z.to_nat (10 * n / 3 + 3)) 2)) ∧
  ∃ st : state,
    Machine.after n k = Ok st ∧
    length (a st) = Z.to_nat (10 * n / 3 + 3) ∧
    ∀ i v c,
      Machine.inner_reach (Z.to_nat (10 * n / 3 + 3 - 1), a st, 0) (i, v, c) →
      length v = Z.to_nat (10 * n / 3 + 3).
Proof.
  intros Hn. pose proof (vector_len_bound n Hn) as Hb.
  fold (vector_len n).
  split; [by apply machine_vector_len|].
  split; [apply machine_alloc_state_vector; lia|].
  split; [by rewrite machine_after_start|].
  destruct (machine_after_length n k Hn) as (st & Hafter & Hlen).
  exists st. split_and!; [done|done|].
  intros i v c Hreach.
  apply machine_inner_reach_length in Hreach. simpl in Hreach. congruence.
Qed.

Lemma state_vector_length_witness :
  0 < 3 ≤ 644245093 ∧
  Machine.vector_len 3 = Ok (10 * 3 / 3 + 3) ∧
  Machine.alloc_state_vector (10 * 3 / 3 + 3)
  = Ok (replicate (Z.to_nat (10 * 3 / 3 + 3)) 2) ∧
  Machine.after 3 0
  = Ok (initial_state (replicate (Z.to_nat (10 * 3 / 3 + 3)) 2)) ∧
  ∃ st : state,
    Machine.after 3 2 = Ok st ∧
    length (a st) = Z.to_nat (10 * 3 / 3 + 3) ∧
    ∀ i v c,
      Machine.inner_reach (Z.to_nat (10 * 3 / 3 + 3 - 1), a st, 0) (i, v, c) →
      length v = Z.to_nat (10 * 3 / 3 + 3).
Proof. split; [lia|]. apply (state_vector_length 3 2). lia. Defined.




(** C10. No access of [generate] leaves its sequence, for any [n]: the
    generator returns a string; for [n > 0] every outer iteration, with
    its reads and writes of the state vector, succeeds; and the output
    step succeeds on every committed sequence, the empty one included. *)
Theorem generate_accesses_in_bounds (n : Z) :
  is_Some (calculatePiDigitsString n) ∧
  (∀ digits : list Z, is_Some (format_output n digits)) ∧
  (0 < n → ∀ k : nat, is_Some (after n k)).
Proof.
  split_and!.
  - apply generate_total.
  - intros digits. by rewrite format_output_spec.
  - intros Hn k. destruct (after_inv n k Hn) as (st & -> & _). done.
Qed.

Lemma generate_accesses_in_bounds_witness :
  is_Some (calculatePiDigitsString 4) ∧
  (∀ digits : list Z, is_Some (format_output 4 digits)) ∧
  0 < 4 ∧ ∀ k : nat, is_Some (after 4 k).
Proof.
  destruct (generate_accesses_in_bounds 4) as (Hgen & Hout & Hloop).
  split; [exact Hgen|]. split; [exact Hout|]. split; [lia|].
  apply Hloop. lia.
Defined.

(** * Further properties *)

(** ** The value the state vector stands for *)

(** The pass multiplies the value of the segment by 10 and hands the
    integer part on as its carry. *)
Lemma pass_value (i : Z) (l : list Z) :
  tail_denom i (pass i l 0).1 = tail_denom i l ∧
  10 * tail_numer i l
  = (pass i l 0).2 * tail_denom i l + tail_numer i (pass i l 0).1.
Proof.
  revert i. induction l as [|x l IH]; intros i; cbn [pass]; [done|].
  destruct (IH (i + 1)) as [HD HN].
  destruct (pass (i + 1) l 0) as [l' c]. simpl in HD, HN.
  pose proof (Z.quotrem_eq (x * 10 + c) (2 * i + 1)) as Hqr.
  destruct (Z.quotrem (x * 10 + c) (2 * i + 1)) as [quotient remainder].
  cbn [fst snd tail_denom tail_numer]. rewrite HD. split; [done|].
  replace (10 * (i * (x * tail_denom (i + 1) l + tail_numer (i + 1) l)))
    with (i * ((x * 10) * tail_denom (i + 1) l
               + 10 * tail_numer (i + 1) l)) by ring.
  rewrite HN.
  replace (x * 10 * tail_denom (i + 1) l
           + (c * tail_denom (i + 1) l + tail_numer (i + 1) l'))
    with ((x * 10 + c) * tail_denom (i + 1) l + tail_numer (i + 1) l')
    by ring.
  rewrite Hqr. ring.
Qed.

(** A segment that respects the radix is worth less than [2 i]. *)
Lemma tail_numer_bound (l : list Z) (i : Z) :
  1 ≤ i →
  (∀ (k : nat) (x : Z), l !! k = Some x → 0 ≤ x ≤ 2 * (i + Z.of_nat k)) →
  0 < tail_denom i l ∧ 0 ≤ tail_numer i l < 2 * i * tail_denom i l.
Proof.
  revert i. induction l as [|x l IH]; intros i Hi Hl; simpl; [lia|].
  destruct (IH (i + 1)) as [HD HN]; [lia| |].
  { intros k y Hy. specialize (Hl (S k) y Hy). lia. }
  specialize (Hl 0%nat x eq_refl). nia.
Qed.

Lemma quotrem_nonneg (x y : Z) :
  0 ≤ x → 0 < y → Z.quotrem x y = (x / y, x mod y).
Proof.
  intros Hx Hy.
  rewrite <- Z.quot_div_nonneg, <- Z.rem_mod_nonneg by lia.
  unfold Z.quot, Z.rem. by destruct (Z.quotrem x y).
Qed.

Lemma pass_carry_nonneg (l : list Z) (i : Z) :
  0 ≤ i → Forall (λ x, 0 ≤ x) l → 0 ≤ (pass i l 0).2.
Proof.
  intros Hi Hl. revert i Hi.
  induction Hl as [|x l Hx _ IH]; intros i Hi; cbn [pass]; [simpl; lia|].
  specialize (IH (i + 1) ltac:(lia)).
  destruct (pass (i + 1) l 0) as [l' c]. simpl in IH.
  rewrite quotrem_nonneg by lia. simpl.
  assert (0 ≤ (x * 10 + c) / (2 * i + 1)) by (apply Z.div_pos; lia).
  nia.
Qed.

Lemma radix_inv_tail (a0 : Z) (tl : list Z) :
  radix_inv (a0 :: tl) →
  ∀ (k : nat) (x : Z), tl !! k = Some x → 0 ≤ x ≤ 2 * (1 + Z.of_nat k).
Proof. intros Hrad k x Hx. destruct (Hrad (S k) x Hx). lia. Qed.

(** The digit extraction on a vector that respects the radix, in full:
    the carry that leaves the pass is at most 19, the candidate is the
    quotient itself, at most 10 before the clamp, and ten times the value
    of the vector is ten times the candidate plus the value left. *)
Lemma digit_step_exact (len : Z) (a0 : Z) (tl : list Z) :
  0 < len → length (a0 :: tl) = Z.to_nat len → radix_inv (a0 :: tl) →
  ∃ (tl' : list Z) (carry : Z),
    pass 1 tl 0 = (tl', carry) ∧ 0 ≤ carry ≤ 19 ∧
    0 ≤ Z.quot (a0 * 10 + carry) 10 ≤ 10 ∧
    digit_step len (a0 :: tl)
    = Some (Z.rem (a0 * 10 + carry) 10 :: tl', Z.quot (a0 * 10 + carry) 10) ∧
    0 < tail_denom 1 tl ∧ tail_denom 1 tl' = tail_denom 1 tl ∧
    10 * numer (a0 :: tl)
    = 10 * Z.quot (a0 * 10 + carry) 10 * tail_denom 1 tl
      + numer (Z.rem (a0 * 10 + carry) 10 :: tl') ∧
    0 ≤ numer (Z.rem (a0 * 10 + carry) 10 :: tl') < 11 * tail_denom 1 tl.
Proof.
  intros Hlen Hv Hrad.
  destruct (digit_step_inv len (a0 :: tl) Hlen Hv Hrad) as
    (v1 & q1 & Hstep & _ & Hrad' & _).
  rewrite (digit_step_list len) in Hstep |- * by done.
  destruct (pass_value 1 tl) as [HD HN].
  destruct (pass 1 tl 0) as [tl' c] eqn:Hpass. simpl in HD, HN.
  exists tl', c.
  destruct (tail_numer_bound tl 1) as [HD0 HN0];
    [lia|by apply (radix_inv_tail a0)|].
  assert (radix_inv (Z.rem (a0 * 10 + c) 10 :: tl')) as Hrad''
    by (by injection Hstep as <- _).
  destruct (tail_numer_bound tl' 1) as [HD' HN'];
    [lia|by eapply radix_inv_tail|].
  destruct (Hrad 0%nat _ eq_refl) as [Ha0 Ha9].
  destruct (Hrad'' 0%nat _ eq_refl) as [Hr0 Hr9].
  rewrite HD in *.
  assert (0 ≤ c) as Hc0.
  { change c with (tl', c).2. rewrite <- Hpass.
    apply pass_carry_nonneg; [lia|]. apply Forall_lookup. intros k x Hx.
    by destruct (Hrad (S k) x Hx). }
  assert (0 ≤ c ≤ 19) as Hc by nia.
  pose proof (Z.quot_rem' (a0 * 10 + c) 10) as Hqr.
  assert (0 ≤ Z.quot (a0 * 10 + c) 10 ≤ 10) as Hq.
  { rewrite Z.quot_div_nonneg by lia. split; [apply Z.div_pos; lia|].
    assert ((a0 * 10 + c) / 10 < 11); [|lia].
    apply Z.div_lt_upper_bound; lia. }
  split_and!; try done; try lia.
  - do 2 f_equal.
    destruct (Z.leb_spec 10 (Z.quot (a0 * 10 + c) 10)); lia.
  - unfold numer. nia.
  - unfold numer. nia.
  - unfold numer. nia.
Qed.

Lemma digit_step_numer (len : Z) (v v' : list Z) (q : Z) :
  0 < len → length v = Z.to_nat len → radix_inv v →
  digit_step len v = Some (v', q) →
  0 < denom v ∧ denom v' = denom v ∧
  10 * numer v = 10 * q * denom v + numer v' ∧
  0 ≤ numer v' < 11 * denom v'.
Proof.
  intros Hlen Hv Hrad Hstep.
  destruct v as [|a0 tl]; [simpl in Hv; lia|].
  destruct (digit_step_exact len a0 tl Hlen Hv Hrad) as
    (tl' & c & _ & _ & _ & Hstep' & HD0 & HD & HN & Hbound).
  rewrite Hstep in Hstep'. injection Hstep' as -> ->.
  unfold denom. cbn [tail]. rewrite HD. done.
Qed.

(** X1. One digit extraction multiplies the value of the state vector by
    10 and takes the candidate out as its integer part: on a vector that
    respects the radix, [10 * value v = 10 * q + value v'] with
    [0 <= value v' < 11], so that [q <= value v < q + 1.1]. *)
Theorem digit_step_value (len : Z) (v v' : list Z) (q : Z) :
  0 < len → length v = Z.to_nat len → radix_inv v →
  digit_step len v = Some (v', q) →
  0 < denom v ∧ denom v' = denom v ∧
  10 * numer v = 10 * q * denom v + numer v' ∧
  0 ≤ numer v' < 11 * denom v'.
Proof.
  intros Hlen Hv Hrad Hstep.
  destruct v as [|a0 tl]; [simpl in Hv; lia|].
  destruct (digit_step_exact len a0 tl Hlen Hv Hrad) as
    (tl' & c & _ & _ & _ & Hstep' & HD0 & HD & HN & Hbound).
  rewrite Hstep in Hstep'. injection Hstep' as -> ->.
  unfold denom. cbn [tail]. by rewrite HD.
Qed.

Lemma digit_step_value_witness :
  0 < denom [2; 2; 2] ∧ denom [9; 1; 0] = denom [2; 2; 2] ∧
  10 * numer [2; 2; 2] = 10 * 2 * denom [2; 2; 2] + numer [9; 1; 0] ∧
  0 ≤ numer [9; 1; 0] < 11 * denom [9; 1; 0].
Proof.
  apply (digit_step_value 3 [2; 2; 2] [9; 1; 0] 2);
    [lia|reflexivity|apply (radix_inv_replicate 3)|reflexivity].
Defined.

(** ** The committed sequence along a run *)

Lemma outer_run_app (len : Z) (k m : nat) (j : Z) (st : state) :
  outer_run len (k + m) j st
  = outer_run len k j st ≫= outer_run len m (j + Z.of_nat k).
Proof.
  revert j st. induction k as [|k IH]; intros j st.
  - simpl. by rewrite Z.add_0_r.
  - cbn [Nat.add outer_run].
    destruct (outer_body len j st) as [st1|]; [simpl|done].
    rewrite IH. by replace (j + 1 + Z.of_nat k) with (j + Z.of_nat (S k)) by lia.
Qed.

Lemma commit_prefix (j q : Z) (digits : list Z) (nines predigit : Z) :
  digits `prefix_of` commit j q digits nines predigit.
Proof.
  unfold commit. rewrite !push_loop_spec. unfold Vec.push_back.
  repeat case_match; try done; rewrite <- app_assoc; by apply prefix_app_r.
Qed.

Lemma outer_body_prefix (len j : Z) (st st' : state) :
  outer_body len j st = Some st' →
  calculated_digits st `prefix_of` calculated_digits st'.
Proof.
  unfold outer_body, buffering. intros Hbody.
  destruct (digit_step len (a st)) as [[v q]|]; [simpl in Hbody|done].
  destruct (rebuffer _ _ _ _). injection Hbody as <-. simpl.
  apply commit_prefix.
Qed.

Lemma outer_run_prefix (len : Z) (k : nat) (j : Z) (st st' : state) :
  outer_run len k j st = Some st' →
  calculated_digits st `prefix_of` calculated_digits st'.
Proof.
  revert j st. induction k as [|k IH]; intros j st Hrun.
  - simpl in Hrun. by simplify_eq.
  - cbn [outer_run] in Hrun.
    destruct (outer_body len j st) as [st1|] eqn:Hbody; [simpl in Hrun|done].
    etrans; [by eapply outer_body_prefix|by eapply IH].
Qed.

(** X2. Along a run of [generate n], [n > 0], the committed sequence only
    grows at its end: what is committed after [k] outer iterations is a
    prefix of what is committed after any [k' >= k] iterations, so that no
    committed entry is ever changed or removed. *)
Theorem committed_digits_only_grow (n : Z) (k k' : nat) :
  0 < n → (k ≤ k')%nat →
  ∃ st st' : state,
    after n k = Some st ∧ after n k' = Some st' ∧
    calculated_digits st `prefix_of` calculated_digits st'.
Proof.
  intros Hn Hk.
  destruct (after_inv n k Hn) as (st & Hafter & _).
  destruct (after_inv n k' Hn) as (st' & Hafter' & _).
  exists st, st'. split_and!; try done.
  unfold after in *. replace k' with (k + (k' - k))%nat in Hafter' by lia.
  rewrite outer_run_app, Hafter in Hafter'. simpl in Hafter'.
  by eapply outer_run_prefix.
Qed.

Lemma committed_digits_only_grow_witness :
  0 < 6 ∧ (3 ≤ 7)%nat ∧
  ∃ st st' : state,
    after 6 3 = Some st ∧ after 6 7 = Some st' ∧
    calculated_digits st `prefix_of` calculated_digits st'.
Proof.
  split; [lia|]. split; [lia|].
  apply (committed_digits_only_grow 6 3 7); lia.
Defined.

(** ** The first two iterations *)

(** On a vector of 2s the carry of the pass stays below 20. *)
Lemma pass_twos_carry (m : nat) (i : Z) :
  1 ≤ i → 0 ≤ (pass i (replicate m 2) 0).2 ≤ 19.
Proof.
  revert i. induction m as [|m IH]; intros i Hi; cbn [replicate pass];
    [simpl; lia|].
  specialize (IH (i + 1) ltac:(lia)).
  destruct (pass (i + 1) (replicate m 2) 0) as [l c]. simpl in IH.
  rewrite quotrem_nonneg by lia. simpl.
  pose proof (Z.div_mod (2 * 10 + c) (2 * i + 1) ltac:(lia)).
  pose proof (Z.mod_pos_bound (2 * 10 + c) (2 * i + 1) ltac:(lia)).
  assert (0 ≤ (2 * 10 + c) / (2 * i + 1)) by (apply Z.div_pos; lia).
  nia.
Qed.

(** The first digit extraction of a run, on four or more 2s, yields the
    candidate 3 and leaves 0 or 1 in entry 0. *)
Lemma first_digit_step (len : Z) :
  4 ≤ len →
  ∃ (v : list Z) (a0 : Z),
    digit_step len (replicate (Z.to_nat len) 2) = Some (v, 3) ∧
    v !! 0%nat = Some a0 ∧ 0 ≤ a0 ≤ 1.
Proof.
  intros Hlen.
  assert (∃ m, Z.to_nat len = S (S (S (S m)))) as [m Hm]
    by (exists (Z.to_nat len - 4)%nat; lia).
  rewrite Hm. cbn [replicate].
  rewrite (digit_step_list len) by (simpl; rewrite length_replicate; lia).
  cbn [pass]. change (1 + 1 + 1 + 1) with 4. change (1 + 1 + 1) with 3.
  change (1 + 1) with 2.
  pose proof (pass_twos_carry m 4 ltac:(lia)) as Hc.
  destruct (pass 4 (replicate m 2) 0) as [l c]. simpl in Hc.
  rewrite (quotrem_nonneg (2 * 10 + c)) by lia.
  set (c3 := (2 * 10 + c) / (2 * 3 + 1) * 3).
  assert (6 ≤ c3 ≤ 15) as Hc3 by (unfold c3; Z.div_mod_to_equations; lia).
  rewrite (quotrem_nonneg (2 * 10 + c3)) by lia.
  set (c2 := (2 * 10 + c3) / (2 * 2 + 1) * 2).
  assert (10 ≤ c2 ≤ 14) as Hc2 by (unfold c2; Z.div_mod_to_equations; lia).
  rewrite (quotrem_nonneg (2 * 10 + c2)) by lia.
  set (c1 := (2 * 10 + c2) / (2 * 1 + 1) * 1).
  assert (10 ≤ c1 ≤ 11) as Hc1 by (unfold c1; Z.div_mod_to_equations; lia).
  rewrite Z.quot_div_nonneg, Z.rem_mod_nonneg by lia.
  assert ((2 * 10 + c1) / 10 = 3) as -> by (Z.div_mod_to_equations; lia).
  eexists _, _. split; [reflexivity|]. split; [reflexivity|].
  Z.div_mod_to_equations; lia.
Qed.

(** After the first iteration nothing is committed and 3 is pending;
    after the second the committed sequence is the anchor 3 alone. *)
Lemma first_two_iterations (n : Z) :
  0 < n →
  ∃ st1 st2 : state,
    after n 1 = Some st1 ∧ calculated_digits st1 = [] ∧
    nines st1 = 0 ∧ predigit st1 = 3 ∧
    after n 2 = Some st2 ∧ calculated_digits st2 = [3] ∧ nines st2 = 0.
Proof.
  intros Hn. pose proof (vector_len_pos n Hn) as Hlen.
  assert (4 ≤ vector_len n) as Hlen4.
  { unfold vector_len. assert (1 ≤ 10 * n / 3); [|lia].
    apply Z.div_le_lower_bound; lia. }
  destruct (first_digit_step (vector_len n) Hlen4) as (v & a0 & Hstep & Hv0 & Ha0).
  destruct (after_inv n 1 Hn) as (st1 & Hafter1 & Hinv1).
  destruct (after_inv n 2 Hn) as (st2 & Hafter2 & _).
  assert (st1 = buffering 0 3 v (start n)) as Hst1.
  { unfold after in Hafter1. cbn [outer_run] in Hafter1.
    unfold outer_body in Hafter1. unfold start at 1 in Hafter1.
    simpl in Hafter1. rewrite Hstep in Hafter1. simpl in Hafter1.
    by simplify_eq. }
  pose proof Hafter2 as Hafter2'.
  rewrite (after_S n 1 st1 Hafter1) in Hafter2. unfold outer_body in Hafter2.
  destruct (digit_step_inv (vector_len n) (a st1)) as
    (v2 & q & Hstep2 & _ & _ & Hq & Hhead); [lia|apply Hinv1..|].
  rewrite Hstep2 in Hafter2. simpl in Hafter2. injection Hafter2 as <-.
  assert (q ≤ 3) as Hq3.
  { specialize (Hhead a0). rewrite Hst1 in Hhead.
    unfold buffering in Hhead. simpl in Hhead. specialize (Hhead Hv0). lia. }
  exists st1, (buffering 1 q v2 st1).
  split_and!; try done; rewrite Hst1; try done;
    unfold buffering, commit, rebuffer; simpl;
    by assert ((q <? 9) = true) as -> by lia.
Qed.

Lemma after_two_more (n : Z) (k : nat) (st : state) :
  0 < n → after n (2 + k) = Some st →
  ∃ rest, calculated_digits st = 3 :: rest.
Proof.
  intros Hn Hafter.
  destruct (first_two_iterations n Hn) as
    (st1 & st2 & _ & _ & _ & _ & Hafter2 & Hdigits2 & _).
  unfold after in *. rewrite outer_run_app, Hafter2 in Hafter.
  simpl in Hafter. apply outer_run_prefix in Hafter as [rest Hrest].
  exists rest. by rewrite Hrest, Hdigits2.
Qed.

(** The loop of [generate n], [n > 0], does at least two iterations. *)
Lemma generate_run_two (n : Z) (k : nat) (st : state) :
  0 < n → (0 < k)%nat → after n k = Some st →
  ((k < Z.to_nat (n + 3))%nat → enough n st = true) →
  (2 ≤ k)%nat.
Proof.
  intros Hn Hk Hafter Hexit.
  destruct (decide (k = 1%nat)) as [->|]; [|lia].
  destruct (first_two_iterations n Hn) as (st1 & _ & Hafter1 & Hdigits1 & _).
  rewrite Hafter in Hafter1. injection Hafter1 as <-.
  specialize (Hexit ltac:(lia)). apply enough_size in Hexit.
  rewrite Hdigits1 in Hexit. unfold Vec.size in Hexit. simpl in Hexit. lia.
Qed.

(** X3. The first committed entry is always 3: for [n > 0] the committed
    sequence starts with 3 from the second outer iteration on, the loop
    ends with such a sequence, and the entry that the output step skips is
    the 3 that the literal ["3."] prints. *)
Theorem anchor_is_three (n : Z) :
  0 < n →
  (∀ k : nat, (2 ≤ k)%nat →
     ∃ st rest, after n k = Some st ∧ calculated_digits st = 3 :: rest) ∧
  ∃ st rest,
    outer_loop n (vector_len n) (Z.to_nat (n + 3)) 0 (start n) = Some st ∧
    calculated_digits st = 3 :: rest ∧
    calculatePiDigitsString n
    = Some ("3." ++ show_digits (take (Z.to_nat n) rest))%string.
Proof.
  intros Hn. split.
  - intros k Hk. destruct (after_inv n k Hn) as (st & Hafter & _).
    replace k with (2 + (k - 2))%nat in Hafter by lia.
    destruct (after_two_more n _ st Hn Hafter) as [rest Hrest].
    exists st, rest. split; [|done].
    by replace k with (2 + (k - 2))%nat by lia.
  - destruct (generate_run n Hn) as
      (k & st & Hk & Hloop & Hafter & _ & _ & Hexit & _ & Hgen).
    pose proof (generate_run_two n k st Hn ltac:(lia) Hafter Hexit) as Hk2.
    replace k with (2 + (k - 2))%nat in Hafter by lia.
    destruct (after_two_more n _ st Hn Hafter) as [rest Hrest].
    exists st, rest. split_and!; try done.
    by rewrite Hgen, Hrest.
Qed.

Lemma anchor_is_three_witness :
  0 < 5 ∧
  (∀ k : nat, (2 ≤ k)%nat →
     ∃ st rest, after 5 k = Some st ∧ calculated_digits st = 3 :: rest) ∧
  ∃ st rest,
    outer_loop 5 (vector_len 5) (Z.to_nat (5 + 3)) 0 (start 5) = Some st ∧
    calculated_digits st = 3 :: rest ∧
    calculatePiDigitsString 5
    = Some ("3." ++ show_digits (take (Z.to_nat 5) rest))%string.
Proof. split; [lia|]. apply (anchor_is_three 5). lia. Defined.

(** X4. Every outer iteration yields one candidate and none is lost: for
    [n > 0], after [k >= 1] iterations the committed entries, the buffered
    nines and the one pending digit add up to [k]; the committed entries
    are decimal digits, and the pending digit is at most 8, so that the
    carry of a candidate 10 commits at most 9. *)
Theorem candidates_accounted (n : Z) (k : nat) :
  0 < n → (1 ≤ k)%nat →
  ∃ st : state,
    after n k = Some st ∧
    Vec.size (calculated_digits st) + nines st + 1 = Z.of_nat k ∧
    0 ≤ nines st ∧ 0 ≤ predigit st ≤ 8 ∧
    Forall (λ d, 0 ≤ d ≤ 9) (calculated_digits st).
Proof.
  intros Hn Hk. destruct (after_inv n k Hn) as (st & Hafter & Hinv).
  exists st. destruct Hinv as [_ _ _ Hnines Hpre Hdig Hcount].
  split_and!; try done; lia.
Qed.

Lemma candidates_accounted_witness :
  0 < 7 ∧ (1 ≤ 4)%nat ∧
  ∃ st : state,
    after 7 4 = Some st ∧
    Vec.size (calculated_digits st) + nines st + 1 = Z.of_nat 4 ∧
    0 ≤ nines st ∧ 0 ≤ predigit st ≤ 8 ∧
    Forall (λ d, 0 ≤ d ≤ 9) (calculated_digits st).
Proof.
  split; [lia|]. split; [lia|]. apply (candidates_accounted 7 4); lia.
Defined.

(** X5. How many digits [generate n] prints, [n > 0]: the result is
    ["3."] followed by ASCII decimal digits only, [n] of them less one for
    every nine beyond the first that is still buffered when the loop ends.
    Fewer than [n] digits are printed only when all [n + 3] iterations are
    done and two or more nines are buffered. *)
Theorem generate_digit_count (n : Z) :
  0 < n →
  ∃ (k : nat) (st : state) (ds : list Z),
    outer_loop n (vector_len n) (Z.to_nat (n + 3)) 0 (start n) = Some st ∧
    after n k = Some st ∧
    calculatePiDigitsString n = Some ("3." ++ show_digits ds)%string ∧
    string_forall ascii_digit (show_digits ds) ∧
    String.length (show_digits ds) = length ds ∧
    Z.of_nat (length ds) = n - Z.max 0 (nines st - 1) ∧
    (Z.of_nat (length ds) < n → Z.of_nat k = n + 3 ∧ 2 ≤ nines st).
Proof.
  intros Hn.
  destruct (generate_run n Hn) as
    (k & st & Hk & Hloop & Hafter & Hinv & _ & Hexit & Hfull & Hgen).
  pose proof (generate_run_two n k st Hn ltac:(lia) Hafter Hexit) as Hk2.
  pose proof Hafter as Hafter'.
  replace k with (2 + (k - 2))%nat in Hafter' by lia.
  destruct (after_two_more n _ st Hn Hafter') as [rest Hrest].
  exists k, st, (take (Z.to_nat n) (drop 1 (calculated_digits st))).
  assert (Forall is_digit
            (take (Z.to_nat n) (drop 1 (calculated_digits st)))) as Hds.
  { apply Forall_take, Forall_drop, Hinv. }
  pose proof (inv_count _ _ _ Hinv) as Hcount.
  pose proof (inv_nines _ _ _ Hinv) as Hnines.
  pose proof (enough_size n st) as [Hen Hne].
  unfold Vec.size in *. rewrite Hrest in *. simpl in Hcount, Hen, Hne.
  split_and!; try done.
  - by apply show_digits_ascii.
  - by apply show_digits_length.
  - rewrite length_take. simpl. rewrite drop_0.
    destruct (enough n st); [apply proj1 in Hen|apply proj1 in Hne];
      [specialize (Hen eq_refl)|specialize (Hne eq_refl);
                                specialize (Hfull eq_refl)]; lia.
  - rewrite length_take. simpl. rewrite drop_0. intros Hshort.
    destruct (enough n st); [apply proj1 in Hen|apply proj1 in Hne];
      [specialize (Hen eq_refl)|specialize (Hne eq_refl);
                                specialize (Hfull eq_refl)]; lia.
Qed.

Lemma generate_digit_count_witness :
  0 < 8 ∧
  ∃ (k : nat) (st : state) (ds : list Z),
    outer_loop 8 (vector_len 8) (Z.to_nat (8 + 3)) 0 (start 8) = Some st ∧
    after 8 k = Some st ∧
    calculatePiDigitsString 8 = Some ("3." ++ show_digits ds)%string ∧
    string_forall ascii_digit (show_digits ds) ∧
    String.length (show_digits ds) = length ds ∧
    Z.of_nat (length ds) = 8 - Z.max 0 (nines st - 1) ∧
    (Z.of_nat (length ds) < 8 → Z.of_nat k = 8 + 3 ∧ 2 ≤ nines st).
Proof. split; [lia|]. apply (generate_digit_count 8). lia. Defined.

(** ** The output step on its own *)

(** X6. The output step on any sequence of decimal digits and any [n]:
    it prints ["3."] and then entries 1, 2, ... of the sequence in order,
    one ASCII digit each, [n] of them or all there are if fewer (none for
    [n <= 0] or a sequence of at most one entry); entry 0 is never
    printed. *)
Theorem format_output_digits (n : Z) (digits : list Z) :
  Forall (λ d, 0 ≤ d ≤ 9) digits →
  ∃ ds : list Z,
    ds = take (Z.to_nat n) (drop 1 digits) ∧
    format_output n digits = Some ("3." ++ show_digits ds)%string ∧
    string_forall ascii_digit (show_digits ds) ∧
    String.length ("3." ++ show_digits ds)
    = (2 + Nat.min (Z.to_nat n) (length digits - 1))%nat.
Proof.
  intros Hdigits. eexists. split; [reflexivity|].
  assert (Forall is_digit (take (Z.to_nat n) (drop 1 digits))) as Hds
    by apply Forall_take, Forall_drop, Hdigits.
  split_and!.
  - apply format_output_spec.
  - by apply show_digits_ascii.
  - simpl. rewrite show_digits_length by done.
    by rewrite length_take, length_drop.
Qed.

Lemma format_output_digits_witness :
  Forall (λ d, 0 ≤ d ≤ 9) [3; 1; 4; 1; 5] ∧
  ∃ ds : list Z,
    ds = take (Z.to_nat 2) (drop 1 [3; 1; 4; 1; 5]) ∧
    format_output 2 [3; 1; 4; 1; 5] = Some ("3." ++ show_digits ds)%string ∧
    string_forall ascii_digit (show_digits ds) ∧
    String.length ("3." ++ show_digits ds)
    = (2 + Nat.min (Z.to_nat 2) (length [3; 1; 4; 1; 5] - 1))%nat.
Proof.
  assert (Forall (λ d, 0 ≤ d ≤ 9) [3; 1; 4; 1; 5]) as Hdigits
    by (repeat constructor; lia).
  split; [exact Hdigits|].
  apply (format_output_digits 2 [3; 1; 4; 1; 5] Hdigits).
Defined.

(** ** No overflow *)

(** X7. For [0 < n <= 322122546] no value of a run leaves its C++ type:
    [n + 5] and [len] are below [2 ^ 31]; at the start of every outer
    iteration [nines] and the size of the committed sequence are at most
    the iteration count and [predigit + 1] is at most 9; and at every step
    of its inner pass [2 * i + 1] and every entry of the vector are below
    [2 ^ 31], and the carry and [a[i] * 10 + carry] are between 0 and
    [2 ^ 63]. *)
Theorem no_machine_overflow (n : Z) (k : nat) :
  0 < n ≤ 322122546 →
  n + 5 < 2 ^ 31 ∧ 0 < vector_len n < 2 ^ 31 ∧
  ∃ st : state,
    after n k = Some st ∧
    0 ≤ nines st ≤ Z.of_nat k ∧ 0 ≤ predigit st + 1 ≤ 9 ∧
    Vec.size (calculated_digits st) ≤ Z.of_nat k ∧
    ∀ i v c,
      inner_reach (Z.to_nat (vector_len n - 1), a st, 0) (i, v, c) →
      2 * Z.of_nat i + 1 < 2 ^ 31 ∧
      0 ≤ c < 2 ^ 63 ∧
      ∀ (m : nat) (x : Z), v !! m = Some x →
        0 ≤ x < 2 ^ 31 ∧ 0 ≤ x * 10 + c < 2 ^ 63.
Proof.
  intros Hn.
  assert (0 < n) as Hpos by lia.
  assert (vector_len n ≤ 2 ^ 30) as Hlen.
  { unfold vector_len.
    assert (10 * n / 3 ≤ 1073741820); [|lia].
    apply Z.div_le_upper_bound; lia. }
  destruct (counters_fit n Hpos Hlen) as [Hn5 Hlen31].
  destruct (after_inv n k Hpos) as (st & Hafter & _).
  split_and!; try lia.
  exists st. split; [done|].
  destruct (buffer_values_fit n Hpos k st Hafter) as (Hnines & Hpre & Hsize).
  split_and!; try lia.
  intros i v c Hreach.
  by apply (inner_values_fit n Hpos Hlen k st).
Qed.

Lemma no_machine_overflow_witness :
  0 < 10000 ≤ 322122546 ∧
  10000 + 5 < 2 ^ 31 ∧ 0 < vector_len 10000 < 2 ^ 31 ∧
  ∃ st : state,
    after 10000 3 = Some st ∧
    0 ≤ nines st ≤ Z.of_nat 3 ∧ 0 ≤ predigit st + 1 ≤ 9 ∧
    Vec.size (calculated_digits st) ≤ Z.of_nat 3 ∧
    ∀ i v c,
      inner_reach (Z.to_nat (vector_len 10000 - 1), a st, 0) (i, v, c) →
      2 * Z.of_nat i + 1 < 2 ^ 31 ∧
      0 ≤ c < 2 ^ 63 ∧
      ∀ (m : nat) (x : Z), v !! m = Some x →
        0 ≤ x < 2 ^ 31 ∧ 0 ≤ x * 10 + c < 2 ^ 63.
Proof. split; [lia|]. apply (no_machine_overflow 10000 3). lia. Defined.

(** ** The clamp *)

(** X8. The clamp of lines 133-135 never changes the candidate: in every
    outer iteration of [generate n], [n > 0], the carry that leaves the
    inner pass is between 0 and 19 and [final_num] is between 0 and 109,
    so that [final_num / 10] is at most 10 already. *)
Theorem clamp_never_changes_candidate (n : Z) (k : nat) :
  0 < n →
  ∃ (st : state) (v1 : list Z) (carry a0 : Z),
    after n k = Some st ∧
    inner_loop (Z.to_nat (vector_len n - 1)) (a st) 0 = Some (v1, carry) ∧
    v1 !! 0%nat = Some a0 ∧
    0 ≤ carry ≤ 19 ∧ 0 ≤ a0 * 10 + carry ≤ 109 ∧
    digit_step (vector_len n) (a st)
    = Some (<[0%nat := Z.rem (a0 * 10 + carry) 10]> v1,
            Z.quot (a0 * 10 + carry) 10).
Proof.
  intros Hn. pose proof (vector_len_pos n Hn) as Hlen.
  destruct (after_inv n k Hn) as (st & Hafter & Hinv).
  pose proof (inv_length _ _ _ Hinv) as Hv.
  pose proof (inv_radix _ _ _ Hinv) as Hrad.
  destruct (a st) as [|a0 tl] eqn:Hast; [simpl in Hv; lia|].
  destruct (digit_step_exact (vector_len n) a0 tl) as
    (tl' & c & Hpass & Hc & _ & Hstep & _); [lia|done|done|].
  exists st, (a0 :: tl'), c, a0. rewrite Hast.
  destruct (Hrad 0%nat _ eq_refl) as [Ha0 Ha9].
  split_and!; try done; try lia.
  replace (Z.to_nat (vector_len n - 1)) with (length tl)
    by (simpl in Hv; lia).
  pose proof (inner_loop_pass tl [a0] [] 0 0 eq_refl) as Hloop.
  rewrite app_nil_r in Hloop. simpl in Hloop.
  change (Z.of_nat 1) with 1 in Hloop.
  rewrite Hloop, Hpass. simpl. by rewrite app_nil_r.
Qed.

Lemma clamp_never_changes_candidate_witness :
  0 < 9 ∧
  ∃ (st : state) (v1 : list Z) (carry a0 : Z),
    after 9 5 = Some st ∧
    inner_loop (Z.to_nat (vector_len 9 - 1)) (a st) 0 = Some (v1, carry) ∧
    v1 !! 0%nat = Some a0 ∧
    0 ≤ carry ≤ 19 ∧ 0 ≤ a0 * 10 + carry ≤ 109 ∧
    digit_step (vector_len 9) (a st)
    = Some (<[0%nat := Z.rem (a0 * 10 + carry) 10]> v1,
            Z.quot (a0 * 10 + carry) 10).
Proof. split; [lia|]. apply (clamp_never_changes_candidate 9 5). lia. Defined.

(** ** The digits as a decimal expansion *)

Lemma decimal_from_app (acc : Z) (l1 l2 : list Z) :
  decimal_from acc (l1 ++ l2) = decimal_from (decimal_from acc l1) l2.
Proof. revert acc. induction l1 as [|d l1 IH]; intros acc; simpl; auto. Qed.

Lemma decimal_from_nines (acc : Z) (m : nat) :
  decimal_from acc (replicate m 9) + 1 = (acc + 1) * 10 ^ Z.of_nat m.
Proof.
  revert acc. induction m as [|m IH]; intros acc.
  - simpl. lia.
  - cbn [replicate decimal_from]. rewrite IH, Nat2Z.inj_succ, Z.pow_succ_r by lia.
    ring.
Qed.

Lemma decimal_from_zeros (acc : Z) (m : nat) :
  decimal_from acc (replicate m 0) = acc * 10 ^ Z.of_nat m.
Proof.
  revert acc. induction m as [|m IH]; intros acc.
  - simpl. lia.
  - cbn [replicate decimal_from]. rewrite IH, Nat2Z.inj_succ, Z.pow_succ_r by lia.
    ring.
Qed.

(** After the first iteration the buffering appends the candidate to the
    decimal number produced so far, a candidate 10 carrying into it. *)
Lemma buffering_decimal (j q : Z) (v : list Z) (st : state) :
  0 < j → 0 ≤ q ≤ 10 → 0 ≤ nines st →
  decimal (produced (buffering j q v st)) = 10 * decimal (produced st) + q.
Proof.
  intros Hj Hq Hnines.
  unfold decimal, produced, buffering, commit, rebuffer.
  assert ((0 <? j) = true) as -> by lia.
  rewrite !push_loop_spec. unfold Vec.push_back.
  set (m := Z.to_nat (nines st)).
  assert (q < 9 ∨ q = 9 ∨ q = 10) as [Hlt|[->| ->]] by lia;
    [assert ((q <? 9) = true) as -> by lia| |]; simpl.
  - rewrite <- !app_assoc. simpl. rewrite !decimal_from_app. simpl.
    by rewrite decimal_from_app.
  - replace (Z.to_nat (nines st + 1)) with (S m) by lia.
    rewrite !decimal_from_app. simpl.
    pose proof (decimal_from_nines
                  (10 * decimal_from 0 (calculated_digits st) + predigit st) m).
    pose proof (decimal_from_nines
                  (10 * (10 * decimal_from 0 (calculated_digits st)
                         + predigit st) + 9) m).
    lia.
  - rewrite !decimal_from_app. simpl. rewrite ?decimal_from_app. simpl.
    rewrite decimal_from_zeros.
    pose proof (decimal_from_nines
                  (10 * decimal_from 0 (calculated_digits st) + predigit st) m).
    lia.
Qed.

Lemma denom_length (v v' : list Z) : length v = length v' → denom v = denom v'.
Proof.
  unfold denom. intros Hlen.
  assert (length (tail v) = length (tail v')) as Htl
    by (destruct v, v'; simpl in *; lia).
  revert Htl. generalize (tail v') as l'. generalize (tail v) as l.
  generalize 1 as i. intros i l. revert i.
  induction l as [|x l IH]; intros i [|x' l'] Hl; simpl in *; try done.
  by rewrite (IH (i + 1) l') by lia.
Qed.

(** The invariant behind the digits: [10 ^ k] times the initial value is
    10 times the number produced so far plus the value left. *)
Lemma expansion_invariant (n : Z) (k : nat) :
  0 < n →
  ∃ st : state,
    after n k = Some st ∧
    0 < denom (a (start n)) ∧
    10 ^ Z.of_nat k * numer (a (start n))
    = 10 * decimal (produced st) * denom (a (start n)) + numer (a st) ∧
    0 ≤ numer (a st) < 11 * denom (a (start n)).
Proof.
  intros Hn. pose proof (vector_len_pos n Hn) as Hlen.
  induction k as [|k IH].
  - exists (start n). split; [done|].
    destruct (after_inv n 0 Hn) as (st0 & Hafter0 & Hinv0).
    injection Hafter0 as <-.
    pose proof (inv_length _ _ _ Hinv0) as Hv.
    pose proof (inv_radix _ _ _ Hinv0) as Hrad.
    destruct (a (start n)) as [|a0 tl] eqn:Hast; [simpl in Hv; lia|].
    destruct (tail_numer_bound tl 1) as [HD HN];
      [lia|by apply (radix_inv_tail a0)|].
    assert (a0 = 2) as ->.
    { pose proof (inv_first _ _ _ Hinv0 eq_refl) as H2.
      rewrite Hast in H2. by injection H2. }
    unfold denom, numer, decimal, produced. simpl. split_and!; lia.
  - destruct IH as (st & Hafter & HD & Hvalue & Hbound).
    destruct (after_inv n k Hn) as (st0 & Hafter0 & Hinv).
    rewrite Hafter in Hafter0. injection Hafter0 as <-.
    destruct (digit_step_inv (vector_len n) (a st)) as
      (v & q & Hstep & Hv & _ & Hq & Hhead); [lia|apply Hinv..|].
    destruct (digit_step_numer (vector_len n) (a st) v q) as
      (_ & HDv & Hnum & Hboundv); [lia|apply Hinv..|done|].
    assert (denom (a st) = denom (a (start n))) as HDst.
    { apply denom_length. rewrite (inv_length _ _ _ Hinv).
      unfold start. simpl. by rewrite length_replicate. }
    rewrite HDst in *. rewrite HDv in Hboundv.
    exists (buffering (Z.of_nat k) q v st).
    split; [rewrite (after_S n k st Hafter); unfold outer_body;
            by rewrite Hstep|].
    assert (decimal (produced (buffering (Z.of_nat k) q v st))
            = 10 * decimal (produced st) + q) as Hdec.
    { destruct k as [|k'].
      - injection Hafter as <-.
        specialize (Hhead 2 (inv_first _ _ _ Hinv eq_refl)).
        unfold decimal, produced, buffering, commit, rebuffer. simpl.
        assert ((q <? 9) = true) as -> by lia. simpl. lia.
      - apply buffering_decimal; [lia|done|apply Hinv]. }
    assert (a (buffering (Z.of_nat k) q v st) = v) as ->
      by (unfold buffering; by destruct (rebuffer _ _ _ _)).
    rewrite Hdec, Nat2Z.inj_succ, Z.pow_succ_r by lia.
    split_and!; try done; lia.
Qed.

(** X9. The digits are the decimal expansion of the value the initial
    vector stands for. For [n > 0] write [P = numer / denom] of the
    initial vector of 2s and [R] for the integer that the committed
    entries, the pending digit and the buffered nines read as after
    [k >= 1] outer iterations: these are [k] decimal digits, the anchor
    first, and [10 ^ k * P = 10 * R + value] of the current vector, a
    value between 0 and 11, so that [R <= 10 ^ (k - 1) * P < R + 1.1]. *)
Theorem digits_are_decimal_expansion (n : Z) (k : nat) :
  0 < n → (1 ≤ k)%nat →
  ∃ st : state,
    after n k = Some st ∧
    length (produced st) = k ∧
    Forall (λ d, 0 ≤ d ≤ 9) (produced st) ∧
    0 < denom (a (start n)) ∧
    10 ^ Z.of_nat k * numer (a (start n))
    = 10 * decimal (produced st) * denom (a (start n)) + numer (a st) ∧
    0 ≤ numer (a st) < 11 * denom (a (start n)).
Proof.
  intros Hn Hk.
  destruct (expansion_invariant n k Hn) as (st & Hafter & HD & Hval & Hbound).
  destruct (after_inv n k Hn) as (st0 & Hafter0 & Hinv).
  rewrite Hafter in Hafter0. injection Hafter0 as <-.
  destruct Hinv as [_ _ _ Hnines Hpre Hdig Hcount].
  unfold Vec.size in Hcount.
  exists st. split_and!; try done; try lia.
  - unfold produced. rewrite length_app. simpl. rewrite length_replicate. lia.
  - unfold produced. apply Forall_app. split; [done|].
    apply Forall_cons. split; [lia|]. apply Forall_replicate. lia.
Qed.

Lemma digits_are_decimal_expansion_witness :
  0 < 3 ∧ (1 ≤ 4)%nat ∧
  ∃ st : state,
    after 3 4 = Some st ∧
    length (produced st) = 4%nat ∧
    Forall (λ d, 0 ≤ d ≤ 9) (produced st) ∧
    0 < denom (a (start 3)) ∧
    10 ^ Z.of_nat 4 * numer (a (start 3))
    = 10 * decimal (produced st) * denom (a (start 3)) + numer (a st) ∧
    0 ≤ numer (a st) < 11 * denom (a (start 3)).
Proof.
  split; [lia|]. split; [lia|].
  apply (digits_are_decimal_expansion 3 4); lia.
Defined.

(** ** The committed digits are those of the initial value *)

Lemma decimal_from_shift (acc : Z) (l : list Z) :
  decimal_from acc l = acc * 10 ^ Z.of_nat (length l) + decimal_from 0 l.
Proof.
  revert acc. induction l as [|d l IH]; intros acc.
  - simpl. lia.
  - cbn [decimal_from length]. rewrite (IH (10 * acc + d)), (IH (10 * 0 + d)).
    rewrite Nat2Z.inj_succ, Z.pow_succ_r by lia. ring.
Qed.

Lemma decimal_digits_bound (l : list Z) :
  Forall is_digit l → 0 ≤ decimal l < 10 ^ Z.of_nat (length l).
Proof.
  unfold decimal, is_digit. induction 1 as [|d l Hd _ IH].
  - simpl. lia.
  - cbn [decimal_from length]. rewrite decimal_from_shift.
    rewrite Nat2Z.inj_succ, Z.pow_succ_r by lia.
    assert (0 < 10 ^ Z.of_nat (length l)) by (apply Z.pow_pos_nonneg; lia).
    nia.
Qed.

(** If a sequence of digits is the integer part of [10 ^ (length - 1)]
    times a number [N / D], so is each of its prefixes. *)
Lemma leading_digits_prefix (l1 l2 : list Z) (N D : Z) :
  Forall is_digit l2 → 0 < D →
  10 * decimal (l1 ++ l2) * D ≤ 10 ^ Z.of_nat (length (l1 ++ l2)) * N
    < 10 * (decimal (l1 ++ l2) + 1) * D →
  10 * decimal l1 * D ≤ 10 ^ Z.of_nat (length l1) * N
    < 10 * (decimal l1 + 1) * D.
Proof.
  intros Hl2 HD. unfold decimal at 1 2.
  rewrite decimal_from_app, decimal_from_shift, length_app, Nat2Z.inj_add,
    Z.pow_add_r by lia.
  fold (decimal l1). fold (decimal l2).
  pose proof (decimal_digits_bound l2 Hl2) as Hc2.
  set (T := 10 ^ Z.of_nat (length l2)) in *.
  set (S1 := 10 ^ Z.of_nat (length l1)).
  set (C1 := decimal l1). set (c2 := decimal l2) in *.
  intros [Hlo Hhi].
  assert (0 < T) as HT by lia.
  split.
  - apply (Z.mul_le_mono_pos_l _ _ T); [done|]. nia.
  - apply (Z.mul_lt_mono_pos_l T); [done|]. nia.
Qed.

(** The initial vector stands for a value between 2 and 4. *)
Lemma initial_value_bound (n : Z) :
  0 < n →
  0 < denom (a (start n)) ∧
  2 * denom (a (start n)) ≤ numer (a (start n)) < 4 * denom (a (start n)).
Proof.
  intros Hn. pose proof (vector_len_pos n Hn) as Hlen.
  unfold start. simpl.
  destruct (Z.to_nat (vector_len n)) as [|m] eqn:Hm; [lia|].
  cbn [replicate]. unfold denom, numer. cbn [tail].
  destruct (tail_numer_bound (replicate m 2) 1) as [HD HN]; [lia| |lia].
  intros k x [-> _]%lookup_replicate. lia.
Qed.

(** At every point of a run the committed sequence is the integer part
    of [10 ^ (size - 1)] times the initial value. *)
Lemma committed_leading (n : Z) (k : nat) :
  0 < n →
  ∃ st : state,
    after n k = Some st ∧
    Forall is_digit (calculated_digits st) ∧
    0 < denom (a (start n)) ∧
    10 * decimal (calculated_digits st) * denom (a (start n))
    ≤ 10 ^ Z.of_nat (length (calculated_digits st)) * numer (a (start n))
    < 10 * (decimal (calculated_digits st) + 1) * denom (a (start n)).
Proof.
  intros Hn.
  destruct (initial_value_bound n Hn) as [HD0 HP].
  destruct (expansion_invariant n k Hn) as (st & Hafter & HD & Hval & Hbound).
  destruct (after_inv n k Hn) as (st0 & Hafter0 & Hinv).
  rewrite Hafter in Hafter0. injection Hafter0 as <-.
  exists st. split_and!; [done|apply Hinv|done|..].
  all: destruct k as [|k];
    [injection Hafter as <-; unfold decimal;
     cbn [calculated_digits start initial_state length decimal_from];
     change (10 ^ Z.of_nat 0) with 1; lia|].
  all: destruct Hinv as [_ _ _ Hnines Hpre Hdig Hcount].
  all: unfold Vec.size in Hcount.
  all: set (D := denom (a (start n))) in *.
  all: set (N0 := numer (a (start n))) in *.
  all: set (C := decimal (calculated_digits st)).
  all: set (m := Z.to_nat (nines st)).
  all: assert (decimal (produced st) + 1
               = (10 * C + predigit st + 1) * 10 ^ Z.of_nat m) as HR
    by (unfold decimal, produced; rewrite decimal_from_app; simpl;
        apply decimal_from_nines).
  all: assert (0 < 10 ^ Z.of_nat m) as HT by (apply Z.pow_pos_nonneg; lia).
  all: set (T := 10 ^ Z.of_nat m) in *.
  all: set (PS := 10 ^ Z.of_nat (length (calculated_digits st))).
  all: assert (10 ^ Z.of_nat (S k) = PS * 10 * T) as Hpow
    by (unfold PS, T;
        replace (Z.of_nat (S k))
          with (Z.of_nat (length (calculated_digits st)) + 1 + Z.of_nat m)
          by lia;
        rewrite !Z.pow_add_r, Z.pow_1_r by lia; done).
  all: rewrite Hpow in Hval.
  all: assert (D ≤ T * D) as HDT by nia.
  - apply (Z.mul_le_mono_pos_l _ _ (10 * T)); [lia|]. nia.
  - apply (Z.mul_lt_mono_pos_l (10 * T)); [lia|]. nia.
Qed.

(** X10. The committed digits are never wrong about the initial value:
    for [n > 0] let [P = numer / denom] of the initial vector of 2s. After
    any number of outer iterations, for every [j] up to the number of
    committed entries, the first [j] committed entries read as a decimal
    integer [C] are the integer part of [10 ^ (j - 1) * P]:
    [10 * C <= 10 ^ j * P < 10 * (C + 1)]. Each committed entry is the
    digit of [P] at its place. *)
Theorem committed_digits_are_leading_digits (n : Z) (k j : nat) :
  0 < n →
  ∃ st : state,
    after n k = Some st ∧
    Forall (λ d, 0 ≤ d ≤ 9) (calculated_digits st) ∧
    0 < denom (a (start n)) ∧
    ((j ≤ length (calculated_digits st))%nat →
     10 * decimal (take j (calculated_digits st)) * denom (a (start n))
     ≤ 10 ^ Z.of_nat j * numer (a (start n))
     < 10 * (decimal (take j (calculated_digits st)) + 1)
       * denom (a (start n))).
Proof.
  intros Hn.
  destruct (committed_leading n k Hn) as (st & Hafter & Hdig & HD & Hlead).
  exists st. split_and!; try done. intros Hj.
  rewrite <- (take_drop j (calculated_digits st)) in Hlead.
  apply leading_digits_prefix in Hlead; [|by apply Forall_drop|done].
  by rewrite length_take, Nat.min_l in Hlead by done.
Qed.

Lemma committed_digits_are_leading_digits_witness :
  0 < 4 ∧
  ∃ st : state,
    after 4 6 = Some st ∧
    Forall (λ d, 0 ≤ d ≤ 9) (calculated_digits st) ∧
    0 < denom (a (start 4)) ∧
    ((2 ≤ length (calculated_digits st))%nat →
     10 * decimal (take 2 (calculated_digits st)) * denom (a (start 4))
     ≤ 10 ^ Z.of_nat 2 * numer (a (start 4))
     < 10 * (decimal (take 2 (calculated_digits st)) + 1)
       * denom (a (start 4))).
Proof.
  split; [lia|]. apply (committed_digits_are_leading_digits 4 6 2). lia.
Defined.

(** X11. What [generate n] prints, [n > 0]: with [P] the value of the
    initial vector of [floor (10 n / 3) + 3] entries 2, the result is
    ["3."] followed by digits [ds] such that [3] followed by [ds], read as
    a decimal integer [C], is the integer part of [10 ^ (length ds) * P].
    The digits printed are the first decimals of [P] exactly; they are
    those of pi as far as [P] agrees with pi. *)
Theorem generate_prints_leading_digits (n : Z) :
  0 < n →
  ∃ ds : list Z,
    calculatePiDigitsString n = Some ("3." ++ show_digits ds)%string ∧
    Forall (λ d, 0 ≤ d ≤ 9) ds ∧
    0 < denom (a (start n)) ∧
    10 * decimal (3 :: ds) * denom (a (start n))
    ≤ 10 ^ Z.of_nat (length (3 :: ds)) * numer (a (start n))
    < 10 * (decimal (3 :: ds) + 1) * denom (a (start n)).
Proof.
  intros Hn.
  destruct (generate_run n Hn) as
    (k & st & Hk & _ & Hafter & _ & _ & Hexit & _ & Hgen).
  pose proof (generate_run_two n k st Hn ltac:(lia) Hafter Hexit) as Hk2.
  pose proof Hafter as Hafter'.
  replace k with (2 + (k - 2))%nat in Hafter' by lia.
  destruct (after_two_more n _ st Hn Hafter') as [rest Hrest].
  destruct (committed_leading n k Hn) as (st' & Hafter'' & Hdig & HD & Hlead).
  rewrite Hafter in Hafter''. injection Hafter'' as <-.
  rewrite Hrest in *. simpl in Hgen. rewrite drop_0 in Hgen.
  apply Forall_cons in Hdig as [_ Hrestdig].
  exists (take (Z.to_nat n) rest). split_and!; try done.
  - by apply Forall_take.
  - apply (leading_digits_prefix (3 :: take (Z.to_nat n) rest)
             (drop (Z.to_nat n) rest)); [by apply Forall_drop|done|].
    simpl. by rewrite take_drop.
  - apply (leading_digits_prefix (3 :: take (Z.to_nat n) rest)
             (drop (Z.to_nat n) rest)); [by apply Forall_drop|done|].
    simpl. by rewrite take_drop.
Qed.

Lemma generate_prints_leading_digits_witness :
  0 < 2 ∧
  ∃ ds : list Z,
    calculatePiDigitsString 2 = Some ("3." ++ show_digits ds)%string ∧
    Forall (λ d, 0 ≤ d ≤ 9) ds ∧
    0 < denom (a (start 2)) ∧
    10 * decimal (3 :: ds) * denom (a (start 2))
    ≤ 10 ^ Z.of_nat (length (3 :: ds)) * numer (a (start 2))
    < 10 * (decimal (3 :: ds) + 1) * denom (a (start 2)).
Proof. split; [lia|]. apply (generate_prints_leading_digits 2). lia. Defined.
